(** * SPHinXsys: the two-level time-stepping drivers

    A shallow embedding of the main loops of
    [tests/2d_examples/test_2d_free_stream_around_cylinder/2d_free_stream_around_cylinder.cpp]
    and [tests/2d_examples/test_2d_poiseuille_flow/src/poiseuille_flow.cpp].

    The particle data, the cell linked lists and the neighbour configurations
    live in an abstract [World]; every dynamics object called by a driver is a
    [call] whose effect on the world is a parameter ([exec]) and whose
    occurrence is recorded, in program order, in the [log] of the driver's
    frame.

    In the drivers [Real] is interpreted in exact rational arithmetic: the
    order and the number of the calls, which most of the properties below are
    about, are the same whatever the arithmetic.  Whether a sub-loop comes to
    its end is not; for that the sub-loops are embedded a second time, on
    binary64 numbers ([Binary64]). *)

From Stdlib Require Import QArith Lqa ZArith List Bool Lia.
From Stdlib Require Floats.
Import ListNotations.

Set Implicit Arguments.

(** ** Scalars *)

(** [Real] is the scalar type of the library; it is read as [Q]. *)
Abbreviation Real := Q (only parsing).

(** The C++ comparison [a < b] on [Real]. *)
Definition Rlt (a b : Real) : bool := negb (Qle_bool b a).

(** Modelled from the spec: [SMIN] is a helper of the library core, defined
    outside the files embedded here; the spec describes the acoustic step as
    the bound "clipped to not overshoot", that is the smaller of the two
    arguments. *)
Definition SMIN (a b : Real) : Real := if Qle_bool a b then a else b.

(** [size_t] counters: 64-bit unsigned, [++] wraps around. *)
Definition size_t_max : Z := 2 ^ 64.
Definition size_t_incr (n : Z) : Z := (n + 1) mod size_t_max.

(** Sum of a list of step sizes. *)
Definition Rsum (l : list Real) : Real := fold_right Qplus 0 l.

(** ** Loops with fuel

    A [while] loop is unfolded at most [fuel] times; when the fuel is used up
    while the loop condition still holds, the frame reached so far is returned
    under [OutOfFuel], so that what was executed remains observable. *)

Inductive outcome (A : Type) : Type :=
| Finished (a : A)
| OutOfFuel (a : A).

Arguments Finished {A} a.
Arguments OutOfFuel {A} a.

Definition reached {A} (o : outcome A) : A :=
  match o with Finished a => a | OutOfFuel a => a end.

Definition is_finished {A} (o : outcome A) : bool :=
  match o with Finished _ => true | OutOfFuel _ => false end.

Definition and_then {A} (o : outcome A) (k : A -> outcome A) : outcome A :=
  match o with
  | Finished a => k a
  | OutOfFuel a => OutOfFuel a
  end.

Notation "x <- o ;; k" := (and_then o (fun x => k))
  (at level 61, o at next level, right associativity).

(** ** Traces

    A run of a driver is built out of stages, each a fixed list of calls; an
    ordering requirement on a run is an automaton that reads the calls one by
    one and has no move where the requirement is broken. *)

Section Traces.

Variable E : Type.
Variable stage : list E -> Prop.

Inductive stages : list E -> Prop :=
| stages_nil : stages []
| stages_cons : forall b tr, stage b -> stages tr -> stages (b ++ tr).

Variable Q : Type.
Variable step : Q -> E -> option Q.

Fixpoint run_automaton (q : Q) (tr : list E) : option Q :=
  match tr with
  | [] => Some q
  | c :: tr' =>
      match step q c with
      | Some q' => run_automaton q' tr'
      | None => None
      end
  end.

End Traces.

(** One call occurs before another in a trace. *)
Definition occurs_before {C : Type} (a b : C) (tr : list C) : Prop :=
  exists l1 l2 l3, tr = l1 ++ a :: l2 ++ b :: l3.

(** ** The free-stream flow around a cylinder *)

Module FreeStream.

(** The basic neighbour relations of the case (lines 50-53) and the bodies
    they are built on. *)
Inductive body : Type := water_block | cylinder | fluid_observer.

Inductive relation : Type :=
| water_block_inner
| water_block_contact
| cylinder_contact
| fluid_observer_contact.

Definition self_body (r : relation) : body :=
  match r with
  | water_block_inner => water_block
  | water_block_contact => water_block
  | cylinder_contact => cylinder
  | fluid_observer_contact => fluid_observer
  end.

Definition partner_bodies (r : relation) : list body :=
  match r with
  | water_block_inner => []
  | water_block_contact => [cylinder]
  | cylinder_contact => [water_block]
  | fluid_observer_contact => [water_block]
  end.

(** One constructor per call made by [main] after the set-up of the methods;
    the arguments are the ones the source passes. *)
Inductive call : Type :=
| initializeSystemCellLinkedLists
| initializeSystemConfigurations
| cylinder_normal_direction
| initialize_a_fluid_step
| get_fluid_advection_time_step_size
| free_stream_surface_indicator
| update_fluid_density
| viscous_acceleration
| transport_velocity_correction
| get_fluid_time_step_size
| pressure_relaxation (dt : Real)
| velocity_boundary_condition_constraint
| density_relaxation (dt : Real)
| emitter_buffer_inflow_condition
| screen_output (N : Z) (Time Dt : Real) (inner_ite_dt : Z)
| emitter_inflow_injection
| disposer_outflow_deletion
| updateCellLinkedListWithParticleSort (period : Z)
| water_block_complex_updateConfiguration
| cylinder_contact_updateConfiguration
| compute_vorticity
| write_real_body_states
| write_total_viscous_force_on_inserted_body (N : Z)
| write_total_force_on_inserted_body (N : Z)
| fluid_observer_contact_updateConfiguration
| write_fluid_velocity (N : Z).

(** The relations a call reads, after the relation each object is constructed
    on (lines 106-142); the two force recorders read the force dynamics built
    on [cylinder_contact]. *)
Definition consumes (c : call) : list relation :=
  match c with
  | free_stream_surface_indicator
  | update_fluid_density
  | viscous_acceleration
  | transport_velocity_correction
  | pressure_relaxation _
  | density_relaxation _ => [water_block_inner; water_block_contact]
  | compute_vorticity => [water_block_inner]
  | write_total_viscous_force_on_inserted_body _
  | write_total_force_on_inserted_body _ => [cylinder_contact]
  | write_fluid_velocity _ => [fluid_observer_contact]
  | _ => []
  end.

(** Modelled from the spec: [ComplexRelation::updateConfiguration] and
    [SPHSystem::initializeSystemConfigurations] belong to the library core,
    outside the files embedded here; by the spec a complex relation is the
    union of its inner and contact relations (here [water_block_inner] and
    [water_block_contact], line 58), and the system initialisation builds the
    configurations of all bodies (comment on line 149). *)
Definition updates (c : call) : list relation :=
  match c with
  | initializeSystemConfigurations =>
      [water_block_inner; water_block_contact; cylinder_contact; fluid_observer_contact]
  | water_block_complex_updateConfiguration => [water_block_inner; water_block_contact]
  | cylinder_contact_updateConfiguration => [cylinder_contact]
  | fluid_observer_contact_updateConfiguration => [fluid_observer_contact]
  | _ => []
  end.

(** The bodies whose particle membership or indexing a call of the
    configuration refresh changes: the emitter and the disposer are parts of
    [water_block] (lines 107-112), and the cell linked list rebuilt is the one
    of [water_block]. *)
Definition refreshes (c : call) : list body :=
  match c with
  | emitter_inflow_injection
  | disposer_outflow_deletion
  | updateCellLinkedListWithParticleSort _ => [water_block]
  | _ => []
  end.

(** Modelled from the spec: the integration kernels belong to the library
    core, outside the files embedded here; by the spec the second integration
    phase (density relaxation) updates density and position, so it moves the
    particles of the body it is built on. *)
Definition moves (c : call) : list body :=
  match c with
  | density_relaxation _ => [water_block]
  | _ => []
  end.

(** A [Dynamics1Level] object with its [post_processes_] vector. *)
Record Dynamics1Level : Type := {
  main_step : Real -> call;
  post_processes_ : list call
}.

Definition push_back (hook : call) (d : Dynamics1Level) : Dynamics1Level :=
  {| main_step := main_step d; post_processes_ := post_processes_ d ++ [hook] |}.

(** Lines 118-120. *)
Definition pressure_relaxation_object : Dynamics1Level :=
  push_back velocity_boundary_condition_constraint
    {| main_step := pressure_relaxation; post_processes_ := [] |}.

Definition density_relaxation_object : Dynamics1Level :=
  {| main_step := density_relaxation; post_processes_ := [] |}.

(** Lines 160-163. *)
Definition screen_output_interval : Z := 100.
Definition end_time : Real := 200.
Definition output_interval : Real := end_time / 400.

Section Driver.

Variable World : Type.
(** The effect of a call on the particle data and configurations; a dynamics
    object may read the global clock [GlobalStaticVariables::physical_time_],
    which is passed as the second argument. *)
Variable exec : call -> Real -> World -> World.
(** The values returned by the two [ReduceDynamics] objects. *)
Variable advection_time_step : Real -> World -> Real.
Variable acoustic_time_step : Real -> World -> Real.

(** The variables of [main] that are live in the loops. *)
Record frame : Type := {
  world : World;
  physical_time_ : Real;
  number_of_iterations : Z;
  integration_time : Real;
  inner_ite_dt : Z;
  relaxation_time : Real;
  log : list call
}.

Definition run (c : call) (s : frame) : frame :=
  {| world := exec c (physical_time_ s) (world s);
     physical_time_ := physical_time_ s;
     number_of_iterations := number_of_iterations s;
     integration_time := integration_time s;
     inner_ite_dt := inner_ite_dt s;
     relaxation_time := relaxation_time s;
     log := log s ++ [c] |}.

(** Modelled from the spec: [Dynamics1Level::exec] belongs to the library
    core, outside the files embedded here; by the spec the phase runs over
    all particles and then the registered post-process hooks run. *)
Definition exec_1level (d : Dynamics1Level) (dt : Real) (s : frame) : frame :=
  fold_left (fun s' hook => run hook s') (post_processes_ d) (run (main_step d dt) s).

(** The body of the acoustic sub-loop (lines 189-199). *)
Definition acoustic_step (Dt : Real) (s : frame) : frame :=
  let dt := SMIN (acoustic_time_step (physical_time_ s) (world s))
                 (Dt - relaxation_time s) in
  let s := run get_fluid_time_step_size s in
  let s := exec_1level pressure_relaxation_object dt s in
  let s := exec_1level density_relaxation_object dt s in
  let s := {| world := world s;
              physical_time_ := physical_time_ s + dt;
              number_of_iterations := number_of_iterations s;
              integration_time := integration_time s + dt;
              inner_ite_dt := inner_ite_dt s;
              relaxation_time := relaxation_time s + dt;
              log := log s |} in
  let s := run emitter_buffer_inflow_condition s in
  {| world := world s;
     physical_time_ := physical_time_ s;
     number_of_iterations := number_of_iterations s;
     integration_time := integration_time s;
     inner_ite_dt := size_t_incr (inner_ite_dt s);
     relaxation_time := relaxation_time s;
     log := log s |}.

(** [while (relaxation_time < Dt)] (line 187). *)
Fixpoint acoustic_loop (fuel : nat) (Dt : Real) (s : frame) : outcome frame :=
  if Rlt (relaxation_time s) Dt then
    match fuel with
    | O => OutOfFuel s
    | S fuel' => acoustic_loop fuel' Dt (acoustic_step Dt s)
    end
  else Finished s.

(** Lines 178-186: the pass before the sub-loop; returns [Dt]. *)
Definition pre_physics (s : frame) : Real * frame :=
  let s := run initialize_a_fluid_step s in
  let Dt := advection_time_step (physical_time_ s) (world s) in
  let s := run get_fluid_advection_time_step_size s in
  let s := run free_stream_surface_indicator s in
  let s := run update_fluid_density s in
  let s := run viscous_acceleration s in
  let s := run transport_velocity_correction s in
  (Dt, {| world := world s;
          physical_time_ := physical_time_ s;
          number_of_iterations := number_of_iterations s;
          integration_time := integration_time s;
          inner_ite_dt := 0;
          relaxation_time := 0;
          log := log s |}).

(** Lines 202-218: screen output and configuration refresh. *)
Definition post_physics (Dt : Real) (s : frame) : frame :=
  let s := if (number_of_iterations s mod screen_output_interval =? 0)%Z
           then run (screen_output (number_of_iterations s) (physical_time_ s) Dt
                                   (inner_ite_dt s)) s
           else s in
  let s := {| world := world s;
              physical_time_ := physical_time_ s;
              number_of_iterations := size_t_incr (number_of_iterations s);
              integration_time := integration_time s;
              inner_ite_dt := inner_ite_dt s;
              relaxation_time := relaxation_time s;
              log := log s |} in
  let s := run emitter_inflow_injection s in
  let s := run disposer_outflow_deletion s in
  let s := run (updateCellLinkedListWithParticleSort 100) s in
  let s := run water_block_complex_updateConfiguration s in
  run cylinder_contact_updateConfiguration s.

(** One iteration of [while (integration_time < output_interval)]: one macro
    advection step (lines 178-218). *)
Definition macro_step (fuel : nat) (s : frame) : outcome frame :=
  let (Dt, s) := pre_physics s in
  s <- acoustic_loop fuel Dt s ;;
  Finished (post_physics Dt s).

(** [while (integration_time < output_interval)] (line 176). *)
Fixpoint integration_loop (fuel : nat) (s : frame) : outcome frame :=
  if Rlt (integration_time s) output_interval then
    match fuel with
    | O => OutOfFuel s
    | S fuel' =>
        s <- macro_step fuel' s ;;
        integration_loop fuel' s
    end
  else Finished s.

(** Lines 221-230, without the wall-clock statistics. *)
Definition write_output (s : frame) : frame :=
  let s := run compute_vorticity s in
  let s := run write_real_body_states s in
  let s := run (write_total_viscous_force_on_inserted_body (number_of_iterations s)) s in
  let s := run (write_total_force_on_inserted_body (number_of_iterations s)) s in
  let s := run fluid_observer_contact_updateConfiguration s in
  run (write_fluid_velocity (number_of_iterations s)) s.

(** [while (GlobalStaticVariables::physical_time_ < end_time)] (line 172). *)
Fixpoint time_loop (fuel : nat) (s : frame) : outcome frame :=
  if Rlt (physical_time_ s) end_time then
    match fuel with
    | O => OutOfFuel s
    | S fuel' =>
        s <- integration_loop fuel'
               {| world := world s;
                  physical_time_ := physical_time_ s;
                  number_of_iterations := number_of_iterations s;
                  integration_time := 0;
                  inner_ite_dt := inner_ite_dt s;
                  relaxation_time := relaxation_time s;
                  log := log s |} ;;
        time_loop fuel' (write_output s)
    end
  else Finished s.

(** Lines 148-172: preparation, first output and the main loop, for a run
    without particle relaxation (the relaxation branch returns before any of
    this is reached). *)
Definition simulation (fuel : nat) (w : World) (t0 : Real) : outcome frame :=
  let s := {| world := w; physical_time_ := t0; number_of_iterations := 0;
              integration_time := 0; inner_ite_dt := 0; relaxation_time := 0;
              log := [] |} in
  let s := run initializeSystemCellLinkedLists s in
  let s := run initializeSystemConfigurations s in
  let s := run cylinder_normal_direction s in
  let s := run write_real_body_states s in
  time_loop fuel s.

End Driver.

(** *** Vocabulary for the traces of the driver *)

Definition body_eqb (a b : body) : bool :=
  match a, b with
  | water_block, water_block
  | cylinder, cylinder
  | fluid_observer, fluid_observer => true
  | _, _ => false
  end.

Definition relation_eqb (a b : relation) : bool :=
  match a, b with
  | water_block_inner, water_block_inner
  | water_block_contact, water_block_contact
  | cylinder_contact, cylinder_contact
  | fluid_observer_contact, fluid_observer_contact => true
  | _, _ => false
  end.

(** A relation touches a body when the body is its self body or one of its
    partners. *)
Definition touches (r : relation) (b : body) : bool :=
  body_eqb (self_body r) b || existsb (body_eqb b) (partner_bodies r).

(** The staleness monitor.  A relation is pending from the moment a call
    changes a body it touches until it is re-derived; reading a pending
    relation is the violation.  [changes] says which calls count as changing
    which bodies. *)
Definition monitor_step (changes : call -> list body) (p : relation -> bool) (c : call)
  : option (relation -> bool) :=
  if existsb p (consumes c) then None
  else Some (fun r => existsb (touches r) (changes c)
                      || (p r && negb (existsb (relation_eqb r) (updates c)))).

Definition monitor (changes : call -> list body)
  : (relation -> bool) -> list call -> option (relation -> bool) :=
  run_automaton (monitor_step changes).

Definition nothing_pending : relation -> bool := fun _ => false.

(** No relation read by the fluid or the solid dynamics is pending. *)
Definition calm (p : relation -> bool) : Prop :=
  p water_block_inner = false /\ p water_block_contact = false
  /\ p cylinder_contact = false.

(** The calls of the three stages of a macro step, as lists. *)
Definition pre_physics_calls : list call :=
  [initialize_a_fluid_step; get_fluid_advection_time_step_size;
   free_stream_surface_indicator; update_fluid_density;
   viscous_acceleration; transport_velocity_correction].

Definition substep_calls (dt : Real) : list call :=
  [get_fluid_time_step_size; pressure_relaxation dt;
   velocity_boundary_condition_constraint; density_relaxation dt;
   emitter_buffer_inflow_condition].

Definition refresh_calls : list call :=
  [emitter_inflow_injection; disposer_outflow_deletion;
   updateCellLinkedListWithParticleSort 100;
   water_block_complex_updateConfiguration; cylinder_contact_updateConfiguration].

Definition output_calls (N : Z) : list call :=
  [compute_vorticity; write_real_body_states;
   write_total_viscous_force_on_inserted_body N; write_total_force_on_inserted_body N;
   fluid_observer_contact_updateConfiguration; write_fluid_velocity N].

Definition is_viscous_acceleration (c : call) : bool :=
  match c with viscous_acceleration => true | _ => false end.

(** The calls of the pass that precedes the acoustic sub-loop. *)
Definition is_pre_physics_call (c : call) : bool :=
  match c with
  | initialize_a_fluid_step | get_fluid_advection_time_step_size
  | free_stream_surface_indicator | update_fluid_density
  | viscous_acceleration | transport_velocity_correction => true
  | _ => false
  end.

(** The step sizes handed to the first integration phase, in order. *)
Fixpoint step_sizes (tr : list call) : list Real :=
  match tr with
  | [] => []
  | pressure_relaxation dt :: tr' => dt :: step_sizes tr'
  | _ :: tr' => step_sizes tr'
  end.

(** The stages out of which every run of the driver is made. *)
Inductive stage : list call -> Prop :=
| stage_setup :
    stage [initializeSystemCellLinkedLists; initializeSystemConfigurations;
           cylinder_normal_direction; write_real_body_states]
| stage_pre_physics : stage pre_physics_calls
| stage_substep : forall dt, stage (substep_calls dt)
| stage_screen_output : forall N T Dt i, stage [screen_output N T Dt i]
| stage_refresh : stage refresh_calls
| stage_output : forall N, stage (output_calls N).

(** The step sizes of the iterations that [acoustic_loop] executes, one for
    each execution of its body, in order. *)
Fixpoint sub_steps (World : Type) (exec : call -> Real -> World -> World)
    (acoustic_time_step : Real -> World -> Real)
    (fuel : nat) (Dt : Real) (s : frame World) : list Real :=
  if Rlt (relaxation_time s) Dt then
    match fuel with
    | O => []
    | S fuel' =>
        SMIN (acoustic_time_step (physical_time_ s) (world s)) (Dt - relaxation_time s)
        :: sub_steps exec acoustic_time_step fuel' Dt
             (acoustic_step exec acoustic_time_step Dt s)
    end
  else [].

End FreeStream.

(** ** The Poiseuille flow *)

Module Poiseuille.

(** One constructor per call made by [main] after the set-up of the methods;
    the arguments are the ones the source passes.  The case has a single
    relation, [water_block_complex] (line 103). *)
Inductive call : Type :=
| initializeSystemCellLinkedLists
| periodic_condition_update_cell_linked_list_
| initializeSystemConfigurations
| wall_boundary_normal_direction
| readRestartFiles (restart_step : Z)
| water_block_updateCellLinkedList
| water_block_complex_updateConfiguration
| body_states_recording (N : option Z)
| initialize_a_fluid_step
| get_fluid_advection_time_step_size
| update_density_by_summation
| transport_velocity_correction (Dt : Real)
| get_fluid_time_step_size
| pressure_relaxation (dt : Real)
| viscous_acceleration (dt : Real)
| density_relaxation (dt : Real)
| screen_output (N : Z) (Time Dt dt : Real)
| restart_io (N : Z)
| periodic_condition_bounding_.

(** Lines 89 and 165-168. *)
Definition restart_step_ : Z := 0.
Definition screen_output_interval : Z := 100.
Definition restart_output_interval : Z := screen_output_interval * 10.
Definition end_time : Real := 20.
Definition Output_Time : Real := 1 # 10.

Section Driver.

Variable World : Type.
Variable exec : call -> Real -> World -> World.
Variable advection_time_step : Real -> World -> Real.
Variable acoustic_time_step : Real -> World -> Real.
(** The time read back by [restart_io.readRestartFiles]. *)
Variable restart_time : World -> Real.

Record frame : Type := {
  world : World;
  physical_time_ : Real;
  number_of_iterations : Z;
  dt_ : Real;
  integration_time : Real;
  relaxation_time : Real;
  log : list call
}.

Definition run (c : call) (s : frame) : frame :=
  {| world := exec c (physical_time_ s) (world s);
     physical_time_ := physical_time_ s;
     number_of_iterations := number_of_iterations s;
     dt_ := dt_ s;
     integration_time := integration_time s;
     relaxation_time := relaxation_time s;
     log := log s ++ [c] |}.

(** The body of the acoustic sub-loop (lines 199-205). *)
Definition acoustic_step (Dt : Real) (s : frame) : frame :=
  let dt := SMIN (acoustic_time_step (physical_time_ s) (world s)) Dt in
  let s := run get_fluid_time_step_size s in
  let s := run (pressure_relaxation dt) s in
  let s := run (viscous_acceleration dt) s in
  let s := run (density_relaxation dt) s in
  {| world := world s;
     physical_time_ := physical_time_ s + dt;
     number_of_iterations := number_of_iterations s;
     dt_ := dt;
     integration_time := integration_time s + dt;
     relaxation_time := relaxation_time s + dt;
     log := log s |}.

(** [while (relaxation_time < Dt)] (line 197). *)
Fixpoint acoustic_loop (fuel : nat) (Dt : Real) (s : frame) : outcome frame :=
  if Rlt (relaxation_time s) Dt then
    match fuel with
    | O => OutOfFuel s
    | S fuel' => acoustic_loop fuel' Dt (acoustic_step Dt s)
    end
  else Finished s.

(** Lines 188-196; the call of [viscous_acceleration] on line 191 is commented
    out in the source. *)
Definition pre_physics (s : frame) : Real * frame :=
  let s := run initialize_a_fluid_step s in
  let Dt := advection_time_step (physical_time_ s) (world s) in
  let s := run get_fluid_advection_time_step_size s in
  let s := run update_density_by_summation s in
  let s := run (transport_velocity_correction Dt) s in
  (Dt, {| world := world s;
          physical_time_ := physical_time_ s;
          number_of_iterations := number_of_iterations s;
          dt_ := dt_ s;
          integration_time := integration_time s;
          relaxation_time := 0;
          log := log s |}).

(** Lines 208-224: screen and restart output, periodic bounding and
    configuration update. *)
Definition post_physics (Dt : Real) (s : frame) : frame :=
  let s := if (number_of_iterations s mod screen_output_interval =? 0)%Z
           then
             let s := run (screen_output (number_of_iterations s) (physical_time_ s) Dt
                                         (dt_ s)) s in
             if (number_of_iterations s mod restart_output_interval =? 0)%Z
             then run (restart_io (number_of_iterations s)) s
             else s
           else s in
  let s := {| world := world s;
              physical_time_ := physical_time_ s;
              number_of_iterations := size_t_incr (number_of_iterations s);
              dt_ := dt_ s;
              integration_time := integration_time s;
              relaxation_time := relaxation_time s;
              log := log s |} in
  let s := run periodic_condition_bounding_ s in
  let s := run water_block_updateCellLinkedList s in
  let s := run periodic_condition_update_cell_linked_list_ s in
  run water_block_complex_updateConfiguration s.

(** One iteration of [while (integration_time < Output_Time)]. *)
Definition macro_step (fuel : nat) (s : frame) : outcome frame :=
  let (Dt, s) := pre_physics s in
  s <- acoustic_loop fuel Dt s ;;
  Finished (post_physics Dt s).

(** [while (integration_time < Output_Time)] (line 184). *)
Fixpoint integration_loop (fuel : nat) (s : frame) : outcome frame :=
  if Rlt (integration_time s) Output_Time then
    match fuel with
    | O => OutOfFuel s
    | S fuel' =>
        s <- macro_step fuel' s ;;
        integration_loop fuel' s
    end
  else Finished s.

(** [while (GlobalStaticVariables::physical_time_ < end_time)] (line 180). *)
Fixpoint time_loop (fuel : nat) (s : frame) : outcome frame :=
  if Rlt (physical_time_ s) end_time then
    match fuel with
    | O => OutOfFuel s
    | S fuel' =>
        s <- integration_loop fuel'
               {| world := world s;
                  physical_time_ := physical_time_ s;
                  number_of_iterations := number_of_iterations s;
                  dt_ := dt_ s;
                  integration_time := 0;
                  relaxation_time := relaxation_time s;
                  log := log s |} ;;
        time_loop fuel' (run (body_states_recording None) s)
    end
  else Finished s.

(** Lines 144-169: the frame at the head of the main loop. *)
Definition setup (w : World) : frame :=
  let s := {| world := w; physical_time_ := 0; number_of_iterations := 0;
              dt_ := 0; integration_time := 0; relaxation_time := 0; log := [] |} in
  let s := run initializeSystemCellLinkedLists s in
  let s := run periodic_condition_update_cell_linked_list_ s in
  let s := run initializeSystemConfigurations s in
  let s := run wall_boundary_normal_direction s in
  let s := if (restart_step_ =? 0)%Z then s
           else
             let t := restart_time (world s) in
             let s := run (readRestartFiles restart_step_) s in
             let s := {| world := world s; physical_time_ := t;
                         number_of_iterations := number_of_iterations s;
                         dt_ := dt_ s; integration_time := integration_time s;
                         relaxation_time := relaxation_time s; log := log s |} in
             let s := run water_block_updateCellLinkedList s in
             let s := run periodic_condition_update_cell_linked_list_ s in
             run water_block_complex_updateConfiguration s in
  let s := run (body_states_recording (Some 0%Z)) s in
  {| world := world s;
     physical_time_ := physical_time_ s;
     number_of_iterations := restart_step_;
     dt_ := 0;
     integration_time := integration_time s;
     relaxation_time := relaxation_time s;
     log := log s |}.

Definition simulation (fuel : nat) (w : World) : outcome frame :=
  time_loop fuel (setup w).

End Driver.

(** *** Vocabulary for the traces of the driver *)

Definition pre_physics_calls (Dt : Real) : list call :=
  [initialize_a_fluid_step; get_fluid_advection_time_step_size;
   update_density_by_summation; transport_velocity_correction Dt].

Definition substep_calls (dt : Real) : list call :=
  [get_fluid_time_step_size; pressure_relaxation dt;
   viscous_acceleration dt; density_relaxation dt].

Definition refresh_calls : list call :=
  [periodic_condition_bounding_; water_block_updateCellLinkedList;
   periodic_condition_update_cell_linked_list_; water_block_complex_updateConfiguration].

Definition is_viscous_acceleration (c : call) : bool :=
  match c with viscous_acceleration _ => true | _ => false end.

(** The calls of the pass that precedes the acoustic sub-loop. *)
Definition is_pre_physics_call (c : call) : bool :=
  match c with
  | initialize_a_fluid_step | get_fluid_advection_time_step_size
  | update_density_by_summation | transport_velocity_correction _ => true
  | _ => false
  end.

Fixpoint step_sizes (tr : list call) : list Real :=
  match tr with
  | [] => []
  | pressure_relaxation dt :: tr' => dt :: step_sizes tr'
  | _ :: tr' => step_sizes tr'
  end.

(** The bracketing automaton of the cell-linked-list rebuild: a rebuild is
    accepted only right after the periodic bounding, and must be followed by
    the periodic cell-linked-list update and then the configuration update. *)
Inductive rebuild_phase : Type := Idle | Bounded | Rebuilt | PeriodicUpdated.

Definition rebuild_step (q : rebuild_phase) (c : call) : option rebuild_phase :=
  match q with
  | Idle | Bounded =>
      match c with
      | periodic_condition_bounding_ => Some Bounded
      | water_block_updateCellLinkedList =>
          match q with Bounded => Some Rebuilt | _ => None end
      | _ => Some Idle
      end
  | Rebuilt =>
      match c with
      | periodic_condition_update_cell_linked_list_ => Some PeriodicUpdated
      | _ => None
      end
  | PeriodicUpdated =>
      match c with
      | water_block_complex_updateConfiguration => Some Idle
      | _ => None
      end
  end.

(** The stages out of which every run of the time loop is made. *)
Inductive stage : list call -> Prop :=
| stage_pre_physics : forall Dt, stage (pre_physics_calls Dt)
| stage_substep : forall dt, stage (substep_calls dt)
| stage_screen_output : forall N T Dt dt, stage [screen_output N T Dt dt]
| stage_restart_output : forall N, stage [restart_io N]
| stage_refresh : stage refresh_calls
| stage_output : stage [body_states_recording None].

Definition rebuild_run : rebuild_phase -> list call -> option rebuild_phase :=
  run_automaton rebuild_step.

(** The step sizes of the iterations that [acoustic_loop] executes, one for
    each execution of its body, in order. *)
Fixpoint sub_steps (World : Type) (exec : call -> Real -> World -> World)
    (acoustic_time_step : Real -> World -> Real)
    (fuel : nat) (Dt : Real) (s : frame World) : list Real :=
  if Rlt (relaxation_time s) Dt then
    match fuel with
    | O => []
    | S fuel' =>
        SMIN (acoustic_time_step (physical_time_ s) (world s)) Dt
        :: sub_steps exec acoustic_time_step fuel' Dt
             (acoustic_step exec acoustic_time_step Dt s)
    end
  else [].

End Poiseuille.

(** ** Concrete runs *)

Module Scenarios.

(** A world without content: calls leave it as it is. *)
Definition still {C : Type} (c : C) (t : Real) (w : unit) : unit := w.

Definition free_stream_start {W : Type} (w : W) : FreeStream.frame W :=
  {| FreeStream.world := w; FreeStream.physical_time_ := 0;
     FreeStream.number_of_iterations := 0; FreeStream.integration_time := 0;
     FreeStream.inner_ite_dt := 0; FreeStream.relaxation_time := 0;
     FreeStream.log := [] |}.

Definition poiseuille_start {W : Type} (w : W) : Poiseuille.frame W :=
  {| Poiseuille.world := w; Poiseuille.physical_time_ := 0;
     Poiseuille.number_of_iterations := 0; Poiseuille.dt_ := 0;
     Poiseuille.integration_time := 0; Poiseuille.relaxation_time := 0;
     Poiseuille.log := [] |}.

(** A world that only tells whether every particle is inside the domain: the
    second integration phase may move particles out of it, the periodic
    bounding puts them back. *)
Definition strays (c : Poiseuille.call) (t : Real) (inside : bool) : bool :=
  match c with
  | Poiseuille.density_relaxation _ => false
  | Poiseuille.periodic_condition_bounding_ => true
  | _ => inside
  end.

End Scenarios.

(** ** The particle relaxation of the inserted body

    The branch of the free-stream [main] taken when
    [sph_system.RunParticleRelaxation()] holds (lines 62-101); it returns
    before the simulation is prepared. *)

Module ParticleRelaxation.

Inductive call : Type :=
| random_inserted_body_particles (dt : Real)
| relaxation_step_inner_SurfaceBounding
| write_inserted_body_to_vtp (N : Z)
| relaxation_step_inner
| screen_output (N : Z)
| finish_message
| write_particle_reload_files (N : Z).

Section Driver.

Variable World : Type.
Variable exec : call -> World -> World.

(** [ite_p] is an [int]; it stays between its initial value and 1000, far
    from the bounds of the type. *)
Record frame : Type := {
  world : World;
  ite_p : Z;
  log : list call
}.

Definition run (c : call) (s : frame) : frame :=
  {| world := exec c (world s); ite_p := ite_p s; log := log s ++ [c] |}.

(** Lines 89-95. *)
Definition relaxation_step (s : frame) : frame :=
  let s := run relaxation_step_inner s in
  let s := {| world := world s; ite_p := ite_p s + 1; log := log s |} in
  if (Z.rem (ite_p s) 200 =? 0)%Z
  then run (write_inserted_body_to_vtp (ite_p s)) (run (screen_output (ite_p s)) s)
  else s.

(** [while (ite_p < 1000)] (line 87). *)
Fixpoint relaxation_loop (fuel : nat) (s : frame) : outcome frame :=
  if (ite_p s <? 1000)%Z then
    match fuel with
    | O => OutOfFuel s
    | S fuel' => relaxation_loop fuel' (relaxation_step s)
    end
  else Finished s.

(** Lines 80-100. *)
Definition relaxation (fuel : nat) (w : World) : outcome frame :=
  let s := {| world := w; ite_p := 0; log := [] |} in
  let s := run (random_inserted_body_particles (1 # 4)) s in
  let s := run relaxation_step_inner_SurfaceBounding s in
  let s := run (write_inserted_body_to_vtp 0) s in
  s <- relaxation_loop fuel s ;;
  Finished (run (write_particle_reload_files 0) (run finish_message s)).

End Driver.

(** The steps written to Vtp files, in order. *)
Fixpoint vtp_outputs (tr : list call) : list Z :=
  match tr with
  | [] => []
  | write_inserted_body_to_vtp N :: tr' => N :: vtp_outputs tr'
  | _ :: tr' => vtp_outputs tr'
  end.

Definition is_relaxation_step (c : call) : bool :=
  match c with relaxation_step_inner => true | _ => false end.

(** The integers [a], [a + 1], ..., [a + n - 1]. *)
Fixpoint Zrange (a : Z) (n : nat) : list Z :=
  match n with
  | O => []
  | S n' => a :: Zrange (a + 1) n'
  end.

End ParticleRelaxation.

(** ** The configuration of the Poiseuille case

    The case has one relation, [water_block_complex]; the dynamics built on
    it (lines 120-132) read its configuration. *)

Module PoiseuilleRelation.

Import Poiseuille.

Definition reads_configuration (c : call) : bool :=
  match c with
  | update_density_by_summation | transport_velocity_correction _
  | pressure_relaxation _ | viscous_acceleration _ | density_relaxation _ => true
  | _ => false
  end.

(** The calls of lines 221-223: they put particles back into the periodic
    domain and rebuild the cell linked list. *)
Definition disturbs (c : call) : bool :=
  match c with
  | periodic_condition_bounding_ | water_block_updateCellLinkedList
  | periodic_condition_update_cell_linked_list_ => true
  | _ => false
  end.

Definition rederives (c : call) : bool :=
  match c with
  | water_block_complex_updateConfiguration | initializeSystemConfigurations => true
  | _ => false
  end.

(** The state is [true] from a disturbing call until the configuration is
    re-derived; reading the configuration in that state is the violation. *)
Definition fresh_step (stale : bool) (c : call) : option bool :=
  if stale && reads_configuration c then None
  else Some (if rederives c then false else if disturbs c then true else stale).

End PoiseuilleRelation.

(** ** The clocks of the sub-loops in double precision

    [Real] is [double] in both drivers.  Whether a sub-loop comes to its end
    depends on how the sums of lines 195-197 (free stream) and 203-205
    (Poiseuille) are rounded, which exact arithmetic does not show.  The two
    sub-loops are therefore embedded once more, with the same calls in the
    same order, on the binary64 numbers of the kernel: their operations are
    those of IEEE 754 with rounding to nearest. *)

Module Binary64.

Import Stdlib.Floats.Floats.

(** Modelled from the spec: [SMIN], as above, on [double]. *)
Definition SMIN (a b : float) : float := if (a <=? b)%float then a else b.

(** The calls of the two sub-loops. *)
Inductive call : Type :=
| get_fluid_time_step_size
| pressure_relaxation (dt : float)
| velocity_boundary_condition_constraint
| viscous_acceleration (dt : float)
| density_relaxation (dt : float)
| emitter_buffer_inflow_condition.

Section SubLoops.

Variable World : Type.
Variable exec : call -> float -> World -> World.
Variable acoustic_time_step : float -> World -> float.

(** The world and the three clocks. *)
Record frame : Type := {
  world : World;
  physical_time_ : float;
  integration_time : float;
  relaxation_time : float
}.

Definition run (c : call) (s : frame) : frame :=
  {| world := exec c (physical_time_ s) (world s);
     physical_time_ := physical_time_ s;
     integration_time := integration_time s;
     relaxation_time := relaxation_time s |}.

(** [relaxation_time += dt; integration_time += dt; physical_time_ += dt]. *)
Definition advance (dt : float) (s : frame) : frame :=
  {| world := world s;
     physical_time_ := (physical_time_ s + dt)%float;
     integration_time := (integration_time s + dt)%float;
     relaxation_time := (relaxation_time s + dt)%float |}.

(** Free stream, line 189. *)
Definition free_stream_dt (Dt : float) (s : frame) : float :=
  SMIN (acoustic_time_step (physical_time_ s) (world s))
       (Dt - relaxation_time s)%float.

(** Free stream, lines 189-199; the hook of the first phase as in
    [FreeStream.exec_1level]. *)
Definition free_stream_step (Dt : float) (s : frame) : frame :=
  let dt := free_stream_dt Dt s in
  let s := run get_fluid_time_step_size s in
  let s := run (pressure_relaxation dt) s in
  let s := run velocity_boundary_condition_constraint s in
  let s := run (density_relaxation dt) s in
  let s := advance dt s in
  run emitter_buffer_inflow_condition s.

(** Poiseuille, line 199. *)
Definition poiseuille_dt (Dt : float) (s : frame) : float :=
  SMIN (acoustic_time_step (physical_time_ s) (world s)) Dt.

(** Poiseuille, lines 199-205. *)
Definition poiseuille_step (Dt : float) (s : frame) : frame :=
  let dt := poiseuille_dt Dt s in
  let s := run get_fluid_time_step_size s in
  let s := run (pressure_relaxation dt) s in
  let s := run (viscous_acceleration dt) s in
  let s := run (density_relaxation dt) s in
  advance dt s.

(** [while (relaxation_time < Dt)], with the body of either driver. *)
Fixpoint sub_loop (step : float -> frame -> frame)
    (fuel : nat) (Dt : float) (s : frame) : outcome frame :=
  if (relaxation_time s <? Dt)%float then
    match fuel with
    | O => OutOfFuel s
    | S fuel' => sub_loop step fuel' Dt (step Dt s)
    end
  else Finished s.

Definition free_stream_loop : nat -> float -> frame -> outcome frame :=
  sub_loop free_stream_step.

Definition poiseuille_loop : nat -> float -> frame -> outcome frame :=
  sub_loop poiseuille_step.

(** Whether each of the first [n] iterations the loop executes leaves the
    accumulated time strictly greater than it found it, that is whether
    [relaxation_time + dt > relaxation_time] holds as the machine computes
    it. *)
Fixpoint advancing (dt_of : float -> frame -> float) (step : float -> frame -> frame)
    (n : nat) (Dt : float) (s : frame) : bool :=
  if (relaxation_time s <? Dt)%float then
    match n with
    | O => true
    | S n' =>
        (relaxation_time s <? relaxation_time s + dt_of Dt s)%float
        && advancing dt_of step n' Dt (step Dt s)
    end
  else true.

End SubLoops.

(** The place of a binary64 number in the order of all of them: zeros at 0,
    the finite numbers by exponent and mantissa on either side, the
    infinities beyond. *)
Definition SFrank (f : spec_float) : Z :=
  match f with
  | S754_zero _ => 0
  | S754_infinity s => if s then - 2 ^ 64 else 2 ^ 64
  | S754_nan => 0
  | S754_finite s m e =>
      let r := ((e + 1074) * 2 ^ 53 + Z.pos m)%Z in
      if s then (- r)%Z else r
  end.

Definition rank (x : float) : Z := SFrank (Prim2SF x).

(** A world without content, the clocks at zero, and acoustic bounds that are
    1 until the physical time has reached 1 and 2^-60 from then on. *)
Definition still (c : call) (t : float) (w : unit) : unit := w.

Definition start : frame unit :=
  {| world := tt; physical_time_ := 0%float; integration_time := 0%float;
     relaxation_time := 0%float |}.

Definition one_then_tiny (t : float) (w : unit) : float :=
  if (t <? 1)%float then 1%float else 0x1p-60%float.

(** A world that holds the next acoustic bound and halves it in every first
    integration phase: the bounds 1/2, 1/4, 1/8, ... *)
Definition halve (c : call) (t : float) (w : float) : float :=
  match c with
  | pressure_relaxation _ => (w / 2)%float
  | _ => w
  end.

Definition start_halving : frame float :=
  {| world := 0.5%float; physical_time_ := 0%float; integration_time := 0%float;
     relaxation_time := 0%float |}.

End Binary64.

(** ** The data each call of the Poiseuille driver runs on

    The driver is generic in the world.  Run on a world that keeps, beside
    the particle data, the list of the calls made so far, each with the data
    it was made on, it records what every call finds; the record influences
    neither the calls nor the reductions. *)

Module PoiseuilleRecord.

Import Poiseuille.

Section Recording.

Variable W : Type.

Definition recorded : Type := (W * list (call * W))%type.

Definition data (r : recorded) : W := fst r.
Definition history (r : recorded) : list (call * W) := snd r.

Variable exec : call -> Real -> W -> W.

Definition recording (c : call) (t : Real) (r : recorded) : recorded :=
  (exec c t (data r), history r ++ [(c, data r)]).

Definition on_data (A : Type) (f : Real -> W -> A) (t : Real) (r : recorded) : A :=
  f t (data r).

(** The frame without the record. *)
Definition erase (s : frame recorded) : frame W :=
  {| world := data (world s);
     physical_time_ := physical_time_ s;
     number_of_iterations := number_of_iterations s;
     dt_ := dt_ s;
     integration_time := integration_time s;
     relaxation_time := relaxation_time s;
     log := log s |}.

Definition erase_outcome (o : outcome (frame recorded)) : outcome (frame W) :=
  match o with
  | Finished s => Finished (erase s)
  | OutOfFuel s => OutOfFuel (erase s)
  end.

(** Modelled from the spec: [PeriodicConditionUsingCellLinkedList::bounding_]
    belongs to the library core, outside the files embedded here.  By the
    spec a rebuild of the spatial index requires every particle inside the
    domain bounding box (4.1); the periodic bounding is taken to establish
    this, under any reading [inside] of the requirement. *)
Definition bounding_restores (inside : W -> Prop) : Prop :=
  forall t w, inside (exec periodic_condition_bounding_ t w).

(** [s'] continues [s] by the calls of [h], each made on the data that [h]
    pairs it with. *)
Definition continues (s s' : frame recorded) (h : list (call * W)) : Prop :=
  log s' = log s ++ map fst h /\ history (world s') = history (world s) ++ h.

(** [h] is a record of calls made one after the other, from the data [w]
    to the data [w']: the first call is recorded with [w], and each later one
    with what the call before it returned. *)
Fixpoint follows (w : W) (h : list (call * W)) (w' : W) : Prop :=
  match h with
  | [] => w' = w
  | p :: h' => snd p = w /\ exists t, follows (exec (fst p) t w) h' w'
  end.

End Recording.

End PoiseuilleRecord.

Unset Implicit Arguments.

(** * Properties *)

(** ** Scalars *)

Lemma Rlt_true_iff (a b : Real) : Rlt a b = true <-> a < b.
Proof.
  unfold Rlt. rewrite negb_true_iff. split; intro H.
  - apply Qnot_le_lt. intro Hle. apply Qle_bool_iff in Hle. congruence.
  - destruct (Qle_bool b a) eqn:E; [|reflexivity].
    apply Qle_bool_iff in E. exfalso. apply (Qlt_not_le _ _ H E).
Qed.

Lemma Rlt_false_iff (a b : Real) : Rlt a b = false <-> b <= a.
Proof.
  unfold Rlt. rewrite negb_false_iff. apply Qle_bool_iff.
Qed.

Lemma SMIN_left (a b : Real) : a <= b -> SMIN a b = a.
Proof.
  intro H. unfold SMIN. apply Qle_bool_iff in H. now rewrite H.
Qed.

Lemma SMIN_right (a b : Real) : b < a -> SMIN a b = b.
Proof.
  intro H. unfold SMIN. destruct (Qle_bool a b) eqn:E; [|reflexivity].
  apply Qle_bool_iff in E. exfalso. apply (Qlt_not_le _ _ H E).
Qed.

Lemma SMIN_cases (a b : Real) :
  (a <= b /\ SMIN a b = a) \/ (b < a /\ SMIN a b = b).
Proof.
  destruct (Qlt_le_dec b a) as [H|H].
  - right. split; [exact H | now apply SMIN_right].
  - left. split; [exact H | now apply SMIN_left].
Qed.

Lemma SMIN_le_r (a b : Real) : SMIN a b <= b.
Proof. destruct (SMIN_cases a b) as [[H ->]|[H ->]]; lra. Qed.

(** ** Traces *)

Section TraceFacts.

Variable E : Type.
Variable stage : list E -> Prop.

Lemma stages_app a b : stages stage a -> stages stage b -> stages stage (a ++ b).
Proof.
  induction 1 as [|blk tr Hblk Htr IH]; intro Hb; [exact Hb|].
  rewrite <- app_assoc. constructor; auto.
Qed.

Lemma stages_one b : stage b -> stages stage b.
Proof.
  intro H. rewrite <- (app_nil_r b). constructor; [exact H | constructor].
Qed.

Lemma stages_flat_map (X : Type) (f : X -> list E) (l : list X) :
  (forall x, stage (f x)) -> stages stage (flat_map f l).
Proof.
  intro Hf. induction l as [|x l IH]; cbn [flat_map]; constructor; auto.
Qed.

Variable Q : Type.
Variable step : Q -> E -> option Q.

Lemma run_automaton_app q a b :
  run_automaton step q (a ++ b)
  = match run_automaton step q a with
    | Some q' => run_automaton step q' b
    | None => None
    end.
Proof.
  revert q. induction a as [|c a IH]; intro q; simpl; [reflexivity|].
  destruct (step q c); auto.
Qed.

(** An invariant of the automaton that every stage preserves is preserved
    by every sequence of stages; in particular the automaton has a move at
    every call. *)
Lemma run_automaton_stages (I : Q -> Prop) :
  (forall b, stage b -> forall q, I q ->
             exists q', run_automaton step q b = Some q' /\ I q') ->
  forall tr, stages stage tr -> forall q, I q ->
  exists q', run_automaton step q tr = Some q' /\ I q'.
Proof.
  intros Hstage tr Htr. induction Htr as [|b tr Hb Htr IH]; intros q Hq.
  - exists q. now split.
  - destruct (Hstage b Hb q Hq) as (q1 & H1 & I1).
    destruct (IH q1 I1) as (q2 & H2 & I2).
    exists q2. split; [|exact I2].
    now rewrite run_automaton_app, H1.
Qed.

End TraceFacts.

(** ** The free-stream driver *)

Section FreeStreamFacts.

Import FreeStream.

Variable World : Type.
Variable exec : call -> Real -> World -> World.
Variable advection_time_step : Real -> World -> Real.
Variable acoustic_time_step : Real -> World -> Real.

Local Abbreviation step := (acoustic_step exec acoustic_time_step).
Local Abbreviation loop := (acoustic_loop exec acoustic_time_step).
Local Abbreviation size_of Dt s :=
  (SMIN (acoustic_time_step (physical_time_ s) (world s)) (Dt - relaxation_time s)).

Lemma fs_step_log Dt (s : frame World) :
  log (step Dt s) = log s ++ substep_calls (size_of Dt s).
Proof.
  unfold acoustic_step, exec_1level. simpl. now rewrite <- !app_assoc.
Qed.

Lemma fs_step_relaxation_time Dt (s : frame World) :
  relaxation_time (step Dt s) = relaxation_time s + size_of Dt s.
Proof. reflexivity. Qed.

Lemma fs_loop_unfold fuel Dt (s : frame World) :
  Rlt (relaxation_time s) Dt = true ->
  loop (S fuel) Dt s = loop fuel Dt (step Dt s).
Proof. intro H. simpl. now rewrite H. Qed.

Lemma fs_loop_exit fuel Dt (s : frame World) :
  Rlt (relaxation_time s) Dt = false -> loop fuel Dt s = Finished s.
Proof. intro H. destruct fuel; simpl; now rewrite H. Qed.

Lemma fs_loop_stuck Dt (s : frame World) :
  Rlt (relaxation_time s) Dt = true -> loop 0 Dt s = OutOfFuel s.
Proof. intro H. simpl. now rewrite H. Qed.

(** The sub-loop appends whole sub-steps and nothing else, and the three
    clocks advance by the sum of the step sizes. *)
Lemma fs_loop_trace fuel : forall Dt (s : frame World),
  exists dts,
    log (reached (loop fuel Dt s)) = log s ++ flat_map substep_calls dts
    /\ relaxation_time (reached (loop fuel Dt s)) == relaxation_time s + Rsum dts
    /\ integration_time (reached (loop fuel Dt s)) == integration_time s + Rsum dts
    /\ physical_time_ (reached (loop fuel Dt s)) == physical_time_ s + Rsum dts
    /\ number_of_iterations (reached (loop fuel Dt s)) = number_of_iterations s.
Proof.
  induction fuel as [|fuel IH]; intros Dt s.
  - exists []. destruct (Rlt (relaxation_time s) Dt) eqn:E.
    + rewrite fs_loop_stuck by exact E. cbn [reached flat_map Rsum fold_right].
      rewrite app_nil_r. repeat split; lra.
    + rewrite fs_loop_exit by exact E. cbn [reached flat_map Rsum fold_right].
      rewrite app_nil_r. repeat split; lra.
  - destruct (Rlt (relaxation_time s) Dt) eqn:E.
    + rewrite fs_loop_unfold by exact E.
      destruct (IH Dt (step Dt s)) as (dts & Hlog & Hr & Hi & Hp & Hn).
      exists (size_of Dt s :: dts).
      rewrite Hlog, fs_step_log. cbn [flat_map]. rewrite <- app_assoc.
      split; [reflexivity|].
      unfold Rsum in *. cbn [fold_right].
      repeat split.
      * rewrite Hr. simpl relaxation_time. lra.
      * rewrite Hi. simpl integration_time. lra.
      * rewrite Hp. simpl physical_time_. lra.
      * rewrite Hn. reflexivity.
    + exists []. rewrite fs_loop_exit by exact E. cbn [reached flat_map Rsum fold_right].
      rewrite app_nil_r. repeat split; lra.
Qed.

(** The accumulated time never passes [Dt]. *)
Lemma fs_loop_no_overshoot fuel : forall Dt (s : frame World),
  relaxation_time s <= Dt ->
  relaxation_time (reached (loop fuel Dt s)) <= Dt.
Proof.
  induction fuel as [|fuel IH]; intros Dt s Hle.
  - simpl. now destruct (Rlt (relaxation_time s) Dt).
  - destruct (Rlt (relaxation_time s) Dt) eqn:E.
    + rewrite fs_loop_unfold by exact E. apply IH.
      rewrite fs_step_relaxation_time.
      pose proof (SMIN_le_r (acoustic_time_step (physical_time_ s) (world s))
                    (Dt - relaxation_time s)).
      lra.
    + rewrite fs_loop_exit by exact E. exact Hle.
Qed.

Lemma fs_loop_finished fuel : forall Dt (s s' : frame World),
  loop fuel Dt s = Finished s' -> Dt <= relaxation_time s'.
Proof.
  induction fuel as [|fuel IH]; intros Dt s s' H.
  - simpl in H. destruct (Rlt (relaxation_time s) Dt) eqn:E; [discriminate|].
    inversion H; subst. now apply Rlt_false_iff.
  - destruct (Rlt (relaxation_time s) Dt) eqn:E.
    + rewrite fs_loop_unfold in H by exact E. eapply IH; eassumption.
    + rewrite fs_loop_exit in H by exact E. inversion H; subst.
      now apply Rlt_false_iff.
Qed.

(** In the free-stream driver the sub-steps add up to [Dt] exactly, in exact
    arithmetic: the step is clipped to the time that remains. *)
Theorem free_stream_sub_loop_exact fuel Dt (s s' : frame World) :
  relaxation_time s <= Dt ->
  loop fuel Dt s = Finished s' ->
  relaxation_time s' == Dt
  /\ exists dts, log s' = log s ++ flat_map substep_calls dts
                 /\ relaxation_time s + Rsum dts == Dt.
Proof.
  intros Hle Hfin.
  pose proof (fs_loop_no_overshoot fuel Dt s Hle) as Hno.
  pose proof (fs_loop_finished _ _ _ _ Hfin) as Hge.
  destruct (fs_loop_trace fuel Dt s) as (dts & Hlog & Hr & _).
  rewrite Hfin in *. cbn [reached] in *.
  split; [lra|]. exists dts. split; [exact Hlog | lra].
Qed.

Local Abbreviation pre := (pre_physics exec advection_time_step).
Local Abbreviation macro := (macro_step exec advection_time_step acoustic_time_step).

Lemma fs_pre_physics_log (s : frame World) :
  log (snd (pre s)) = log s ++ pre_physics_calls.
Proof.
  unfold pre_physics. simpl. now rewrite <- !app_assoc.
Qed.

Lemma fs_post_physics_log Dt (s : frame World) :
  exists scr,
    log (post_physics exec Dt s) = log s ++ scr ++ refresh_calls
    /\ (scr = [] \/ scr = [screen_output (number_of_iterations s) (physical_time_ s)
                                         Dt (inner_ite_dt s)]).
Proof.
  unfold post_physics.
  destruct (number_of_iterations s mod screen_output_interval =? 0)%Z.
  - eexists. split; [|right; reflexivity]. simpl. now rewrite <- !app_assoc.
  - exists []. split; [|left; reflexivity]. simpl. now rewrite <- !app_assoc.
Qed.

Lemma fs_macro_step_eq fuel (s : frame World) :
  macro fuel s =
  (s' <- loop fuel (fst (pre s)) (snd (pre s)) ;;
   Finished (post_physics exec (fst (pre s)) s')).
Proof. reflexivity. Qed.

(** The calls of one macro step: the pre-physics pass, whole sub-steps, and,
    when the sub-loop has finished, the screen output (every hundredth step)
    and the configuration refresh. *)
Lemma fs_macro_step_trace fuel (s : frame World) :
  exists dts post,
    log (reached (macro fuel s))
    = log s ++ pre_physics_calls ++ flat_map substep_calls dts ++ post
    /\ (post = [] \/ post = refresh_calls
        \/ exists N T Dt i, post = screen_output N T Dt i :: refresh_calls).
Proof.
  rewrite fs_macro_step_eq.
  destruct (fs_loop_trace fuel (fst (pre s)) (snd (pre s)))
    as (dts & Hlog & _).
  rewrite fs_pre_physics_log in Hlog.
  destruct (loop fuel (fst (pre s)) (snd (pre s))) as [s1|s1]; cbn [reached and_then] in *.
  - destruct (fs_post_physics_log (fst (pre s)) s1) as (scr & Hpost & Hscr).
    exists dts, (scr ++ refresh_calls). split.
    + rewrite Hpost, Hlog. now rewrite <- !app_assoc.
    + right. destruct Hscr as [->| ->]; [left; reflexivity|].
      right. now repeat eexists.
  - exists dts, []. split; [|now left].
    rewrite Hlog, app_nil_r. now rewrite <- !app_assoc.
Qed.

(** *** Runs as sequences of stages *)

Lemma fs_macro_step_stages fuel (s : frame World) :
  exists tr, log (reached (macro fuel s)) = log s ++ tr /\ stages stage tr.
Proof.
  destruct (fs_macro_step_trace fuel s) as (dts & post & Hlog & Hpost).
  eexists. split; [exact Hlog|].
  apply stages_app; [apply stages_one; constructor|].
  apply stages_app; [apply stages_flat_map; intro; constructor|].
  destruct Hpost as [->|[->|(N & T & Dt & i & ->)]].
  - constructor.
  - apply stages_one; constructor.
  - change (stages stage ([screen_output N T Dt i] ++ refresh_calls)).
    constructor; [constructor | apply stages_one; constructor].
Qed.

Local Abbreviation integration :=
  (integration_loop exec advection_time_step acoustic_time_step).

Lemma fs_integration_loop_stages fuel : forall s : frame World,
  exists tr, log (reached (integration fuel s)) = log s ++ tr /\ stages stage tr.
Proof.
  induction fuel as [|fuel IH]; intro s; simpl;
    destruct (Rlt (integration_time s) output_interval).
  - exists []. rewrite app_nil_r. split; [reflexivity | constructor].
  - exists []. rewrite app_nil_r. split; [reflexivity | constructor].
  - destruct (fs_macro_step_stages fuel s) as (tr1 & H1 & S1).
    destruct (macro fuel s) as [s1|s1]; cbn [reached and_then] in *.
    + destruct (IH s1) as (tr2 & H2 & S2).
      exists (tr1 ++ tr2). split; [|now apply stages_app].
      rewrite H2, H1. now rewrite app_assoc.
    + exists tr1. now split.
  - exists []. rewrite app_nil_r. split; [reflexivity | constructor].
Qed.

Lemma fs_write_output_log (s : frame World) :
  log (write_output exec s) = log s ++ output_calls (number_of_iterations s).
Proof.
  unfold write_output. simpl. now rewrite <- !app_assoc.
Qed.

Local Abbreviation time := (time_loop exec advection_time_step acoustic_time_step).

Lemma fs_time_loop_stages fuel : forall s : frame World,
  exists tr, log (reached (time fuel s)) = log s ++ tr /\ stages stage tr.
Proof.
  induction fuel as [|fuel IH]; intro s; simpl;
    destruct (Rlt (physical_time_ s) end_time).
  - exists []. rewrite app_nil_r. split; [reflexivity | constructor].
  - exists []. rewrite app_nil_r. split; [reflexivity | constructor].
  - match goal with |- context [integration fuel ?f] =>
      destruct (fs_integration_loop_stages fuel f) as (tr1 & H1 & S1);
      destruct (integration fuel f) as [s1|s1]
    end; cbn [reached and_then log] in *.
    + destruct (IH (write_output exec s1)) as (tr2 & H2 & S2).
      rewrite fs_write_output_log in H2.
      exists (tr1 ++ output_calls (number_of_iterations s1) ++ tr2).
      split.
      * rewrite H2, H1. now rewrite <- !app_assoc.
      * apply stages_app; [exact S1|]. constructor; [constructor | exact S2].
    + exists tr1. now split.
  - exists []. rewrite app_nil_r. split; [reflexivity | constructor].
Qed.

Lemma fs_simulation_stages fuel w t0 :
  stages stage (log (reached (simulation exec advection_time_step acoustic_time_step fuel w t0))).
Proof.
  unfold simulation.
  match goal with |- context [time fuel ?f] =>
    destruct (fs_time_loop_stages fuel f) as (tr & H & S)
  end.
  rewrite H.
  change (stages stage ([initializeSystemCellLinkedLists; initializeSystemConfigurations;
                   cylinder_normal_direction; write_real_body_states] ++ tr)).
  constructor; [constructor | exact S].
Qed.

End FreeStreamFacts.

(** *** Staleness of the neighbour relations *)

Section Staleness.

Import FreeStream.

Variable changes : call -> list body.

Lemma monitor_app p a b :
  monitor changes p (a ++ b)
  = match monitor changes p a with
    | Some p' => monitor changes p' b
    | None => None
    end.
Proof. apply run_automaton_app. Qed.

Lemma relation_eqb_eq a b : relation_eqb a b = true -> a = b.
Proof. destruct a, b; simpl; congruence. Qed.

Lemma existsb_relation_eqb r l : existsb (relation_eqb r) l = true -> In r l.
Proof.
  intro H. apply existsb_exists in H. destruct H as (x & Hin & Heq).
  apply relation_eqb_eq in Heq. now subst.
Qed.

(** A pending relation stays pending until a call re-derives it, and the
    monitor rejects the trace if it is read before. *)
Lemma pending_until_updated r c post :
  In r (consumes c) ->
  forall mid p p',
    p r = true ->
    monitor changes p (mid ++ c :: post) = Some p' ->
    exists u, In u mid /\ In r (updates u).
Proof.
  intro Hc. induction mid as [|e mid IH]; intros p p' Hp Hrun.
  - simpl in Hrun. unfold monitor_step in Hrun.
    assert (Hex : existsb p (consumes c) = true)
      by (apply existsb_exists; eauto).
    rewrite Hex in Hrun. discriminate.
  - simpl in Hrun.
    destruct (monitor_step changes p e) as [p1|] eqn:E; [|discriminate].
    unfold monitor_step in E.
    destruct (existsb p (consumes e)); [discriminate|].
    inversion E; subst; clear E.
    destruct (existsb (relation_eqb r) (updates e)) eqn:U.
    + exists e. split; [now left | now apply existsb_relation_eqb].
    + match type of Hrun with monitor _ ?q _ = _ =>
        assert (Hq : q r = true) by (cbv beta; rewrite Hp, U; apply orb_true_r)
      end.
      destruct (IH _ _ Hq Hrun) as (u & Hin & Hu).
      exists u. split; [now right | exact Hu].
Qed.

(** What an accepted trace guarantees: between a call that changes a body
    and a later call that reads a relation touching that body, the relation
    is re-derived. *)
Lemma monitor_sound p0 p' tr :
  monitor changes p0 tr = Some p' ->
  forall pre m mid c post r b,
    tr = pre ++ m :: mid ++ c :: post ->
    In b (changes m) -> touches r b = true -> In r (consumes c) ->
    exists u, In u mid /\ In r (updates u).
Proof.
  intros Hrun pre m mid c post r b -> Hb Ht Hc.
  rewrite monitor_app in Hrun.
  destruct (monitor changes p0 pre) as [p1|]; [|discriminate].
  simpl in Hrun.
  destruct (monitor_step changes p1 m) as [p2|] eqn:E; [|discriminate].
  apply (pending_until_updated r c post Hc mid p2 p'); [|exact Hrun].
  unfold monitor_step in E.
  destruct (existsb p1 (consumes m)); [discriminate|].
  inversion E; subst; clear E. cbv beta.
  apply orb_true_iff. left. apply existsb_exists. eauto.
Qed.

End Staleness.

Section RefreshMonitor.

Import FreeStream.

(** Every stage of the driver takes a calm monitor to a calm monitor, when
    the changes monitored are those of the configuration refresh. *)
Lemma monitor_stage b :
  stage b -> forall p, calm p ->
  exists p', monitor refreshes p b = Some p' /\ calm p'.
Proof.
  intros Hb p (Hi & Hc & Hy).
  destruct Hb; cbn;
    repeat (progress (unfold monitor_step; cbn;
                      rewrite ?Hi, ?Hc, ?Hy, ?andb_true_r, ?andb_false_r, ?orb_false_r;
                      cbn));
    (eexists; split; [reflexivity|]);
    unfold calm; cbn; rewrite ?Hi, ?Hc, ?Hy; auto.
Qed.

Lemma monitor_stages tr :
  stages stage tr -> forall p, calm p ->
  exists p', monitor refreshes p tr = Some p' /\ calm p'.
Proof. exact (run_automaton_stages _ _ _ _ calm monitor_stage tr). Qed.

Lemma nothing_pending_calm : calm nothing_pending.
Proof. now repeat split. Qed.

End RefreshMonitor.

(** ** The Poiseuille driver *)

Section PoiseuilleFacts.

Import Poiseuille.

Variable World : Type.
Variable exec : call -> Real -> World -> World.
Variable advection_time_step : Real -> World -> Real.
Variable acoustic_time_step : Real -> World -> Real.

Local Abbreviation step := (acoustic_step exec acoustic_time_step).
Local Abbreviation loop := (acoustic_loop exec acoustic_time_step).
Local Abbreviation size_of Dt s := (SMIN (acoustic_time_step (physical_time_ s) (world s)) Dt).

Lemma po_step_log Dt (s : frame World) :
  log (step Dt s) = log s ++ substep_calls (size_of Dt s).
Proof.
  unfold acoustic_step. simpl. now rewrite <- !app_assoc.
Qed.

Lemma po_step_relaxation_time Dt (s : frame World) :
  relaxation_time (step Dt s) = relaxation_time s + size_of Dt s.
Proof. reflexivity. Qed.

Lemma po_loop_unfold fuel Dt (s : frame World) :
  Rlt (relaxation_time s) Dt = true ->
  loop (S fuel) Dt s = loop fuel Dt (step Dt s).
Proof. intro H. simpl. now rewrite H. Qed.

Lemma po_loop_exit fuel Dt (s : frame World) :
  Rlt (relaxation_time s) Dt = false -> loop fuel Dt s = Finished s.
Proof. intro H. destruct fuel; simpl; now rewrite H. Qed.

Lemma po_loop_stuck Dt (s : frame World) :
  Rlt (relaxation_time s) Dt = true -> loop 0 Dt s = OutOfFuel s.
Proof. intro H. simpl. now rewrite H. Qed.

Lemma po_loop_trace fuel : forall Dt (s : frame World),
  exists dts,
    log (reached (loop fuel Dt s)) = log s ++ flat_map substep_calls dts
    /\ relaxation_time (reached (loop fuel Dt s)) == relaxation_time s + Rsum dts
    /\ number_of_iterations (reached (loop fuel Dt s)) = number_of_iterations s.
Proof.
  induction fuel as [|fuel IH]; intros Dt s.
  - exists []. destruct (Rlt (relaxation_time s) Dt) eqn:E.
    + rewrite po_loop_stuck by exact E. cbn [reached flat_map Rsum fold_right].
      rewrite app_nil_r. repeat split; lra.
    + rewrite po_loop_exit by exact E. cbn [reached flat_map Rsum fold_right].
      rewrite app_nil_r. repeat split; lra.
  - destruct (Rlt (relaxation_time s) Dt) eqn:E.
    + rewrite po_loop_unfold by exact E.
      destruct (IH Dt (step Dt s)) as (dts & Hlog & Hr & Hn).
      exists (size_of Dt s :: dts).
      rewrite Hlog, po_step_log. cbn [flat_map]. rewrite <- app_assoc.
      split; [reflexivity|].
      unfold Rsum in *. cbn [fold_right].
      split.
      * rewrite Hr. simpl relaxation_time. lra.
      * rewrite Hn. reflexivity.
    + exists []. rewrite po_loop_exit by exact E. cbn [reached flat_map Rsum fold_right].
      rewrite app_nil_r. repeat split; lra.
Qed.

Local Abbreviation pre := (pre_physics exec advection_time_step).
Local Abbreviation macro := (macro_step exec advection_time_step acoustic_time_step).

Lemma po_pre_physics_log (s : frame World) :
  log (snd (pre s)) = log s ++ pre_physics_calls (fst (pre s)).
Proof.
  unfold pre_physics. simpl. now rewrite <- !app_assoc.
Qed.

Lemma po_post_physics_log Dt (s : frame World) :
  exists scr,
    log (post_physics exec Dt s) = log s ++ scr ++ refresh_calls
    /\ (scr = []
        \/ (exists N T dt, scr = [screen_output N T Dt dt])
        \/ (exists N T dt, scr = [screen_output N T Dt dt; restart_io N])).
Proof.
  unfold post_physics.
  destruct (number_of_iterations s mod screen_output_interval =? 0)%Z.
  - cbn [number_of_iterations run].
    destruct (number_of_iterations s mod restart_output_interval =? 0)%Z.
    + eexists. split; [|right; right; now repeat eexists].
      simpl. now rewrite <- !app_assoc.
    + eexists. split; [|right; left; now repeat eexists].
      simpl. now rewrite <- !app_assoc.
  - exists []. split; [|now left]. simpl. now rewrite <- !app_assoc.
Qed.

Lemma po_macro_step_eq fuel (s : frame World) :
  macro fuel s =
  (s' <- loop fuel (fst (pre s)) (snd (pre s)) ;;
   Finished (post_physics exec (fst (pre s)) s')).
Proof. reflexivity. Qed.

Lemma po_macro_step_trace fuel (s : frame World) :
  exists dts post,
    log (reached (macro fuel s))
    = log s ++ pre_physics_calls (fst (pre s)) ++ flat_map substep_calls dts ++ post
    /\ (post = [] \/ post = refresh_calls
        \/ (exists N T Dt dt, post = screen_output N T Dt dt :: refresh_calls)
        \/ (exists N T Dt dt,
              post = screen_output N T Dt dt :: restart_io N :: refresh_calls)).
Proof.
  rewrite po_macro_step_eq.
  destruct (po_loop_trace fuel (fst (pre s)) (snd (pre s))) as (dts & Hlog & _).
  rewrite po_pre_physics_log in Hlog.
  destruct (loop fuel (fst (pre s)) (snd (pre s))) as [s1|s1]; cbn [reached and_then] in *.
  - destruct (po_post_physics_log (fst (pre s)) s1) as (scr & Hpost & Hscr).
    exists dts, (scr ++ refresh_calls). split.
    + rewrite Hpost, Hlog. now rewrite <- !app_assoc.
    + right. destruct Hscr as [->|[(N & T & dt & ->)|(N & T & dt & ->)]].
      * now left.
      * right. left. now repeat eexists.
      * right. right. now repeat eexists.
  - exists dts, []. split; [|now left].
    rewrite Hlog, app_nil_r. now rewrite <- !app_assoc.
Qed.

(** *** Runs as sequences of stages *)

Lemma po_macro_step_stages fuel (s : frame World) :
  exists tr, log (reached (macro fuel s)) = log s ++ tr /\ stages stage tr.
Proof.
  destruct (po_macro_step_trace fuel s) as (dts & post & Hlog & Hpost).
  eexists. split; [exact Hlog|].
  apply stages_app; [apply stages_one; constructor|].
  apply stages_app; [apply stages_flat_map; intro; constructor|].
  destruct Hpost as [->|[->|[(N & T & Dt & dt & ->)|(N & T & Dt & dt & ->)]]].
  - constructor.
  - apply stages_one; constructor.
  - change (stages stage ([screen_output N T Dt dt] ++ refresh_calls)).
    constructor; [constructor | apply stages_one; constructor].
  - change (stages stage ([screen_output N T Dt dt] ++ [restart_io N] ++ refresh_calls)).
    constructor; [constructor|].
    constructor; [constructor | apply stages_one; constructor].
Qed.

Local Abbreviation integration :=
  (integration_loop exec advection_time_step acoustic_time_step).

Lemma po_integration_loop_stages fuel : forall s : frame World,
  exists tr, log (reached (integration fuel s)) = log s ++ tr /\ stages stage tr.
Proof.
  induction fuel as [|fuel IH]; intro s; simpl;
    destruct (Rlt (integration_time s) Output_Time).
  - exists []. rewrite app_nil_r. split; [reflexivity | constructor].
  - exists []. rewrite app_nil_r. split; [reflexivity | constructor].
  - destruct (po_macro_step_stages fuel s) as (tr1 & H1 & S1).
    destruct (macro fuel s) as [s1|s1]; cbn [reached and_then] in *.
    + destruct (IH s1) as (tr2 & H2 & S2).
      exists (tr1 ++ tr2). split; [|now apply stages_app].
      rewrite H2, H1. now rewrite app_assoc.
    + exists tr1. now split.
  - exists []. rewrite app_nil_r. split; [reflexivity | constructor].
Qed.

Local Abbreviation time := (time_loop exec advection_time_step acoustic_time_step).

Lemma po_time_loop_stages fuel : forall s : frame World,
  exists tr, log (reached (time fuel s)) = log s ++ tr /\ stages stage tr.
Proof.
  induction fuel as [|fuel IH]; intro s; simpl;
    destruct (Rlt (physical_time_ s) end_time).
  - exists []. rewrite app_nil_r. split; [reflexivity | constructor].
  - exists []. rewrite app_nil_r. split; [reflexivity | constructor].
  - match goal with |- context [integration fuel ?f] =>
      destruct (po_integration_loop_stages fuel f) as (tr1 & H1 & S1);
      destruct (integration fuel f) as [s1|s1]
    end; cbn [reached and_then log] in *.
    + destruct (IH (run exec (body_states_recording None) s1)) as (tr2 & H2 & S2).
      cbn [log run] in H2.
      exists (tr1 ++ [body_states_recording None] ++ tr2).
      split.
      * rewrite H2, H1. now rewrite <- !app_assoc.
      * apply stages_app; [exact S1|]. constructor; [constructor | exact S2].
    + exists tr1. now split.
  - exists []. rewrite app_nil_r. split; [reflexivity | constructor].
Qed.

End PoiseuilleFacts.

(** *** The bracketing of the rebuild *)

Section RebuildBracket.

Import Poiseuille.

Lemma rebuild_run_app q a b :
  rebuild_run q (a ++ b)
  = match rebuild_run q a with
    | Some q' => rebuild_run q' b
    | None => None
    end.
Proof. apply run_automaton_app. Qed.

Lemma rebuild_stage b : stage b -> rebuild_run Idle b = Some Idle.
Proof. destruct 1; reflexivity. Qed.

Lemma rebuild_stages tr : stages stage tr -> rebuild_run Idle tr = Some Idle.
Proof.
  intro Htr.
  destruct (run_automaton_stages _ stage _ rebuild_step (fun q => q = Idle)) with
    (tr := tr) (q := Idle) as (q' & Hrun & ->); auto.
  intros b Hb q ->. exists Idle. split; [now apply rebuild_stage | reflexivity].
Qed.

(** The automaton is in [Bounded] only right after the periodic bounding. *)
Lemma rebuild_step_bounded q c :
  rebuild_step q c = Some Bounded -> c = periodic_condition_bounding_.
Proof. destruct q, c; simpl; congruence. Qed.

Lemma rebuild_run_bounded tr : forall q,
  rebuild_run q tr = Some Bounded ->
  (tr = [] /\ q = Bounded) \/ exists tr', tr = tr' ++ [periodic_condition_bounding_].
Proof.
  induction tr as [|c tr IH]; intros q H.
  - left. simpl in H. split; congruence.
  - right. simpl in H.
    destruct (rebuild_step q c) as [q1|] eqn:E; [|discriminate].
    destruct (IH q1 H) as [[-> ->]|(tr' & ->)].
    + exists []. simpl. f_equal. now apply rebuild_step_bounded in E.
    + exists (c :: tr'). reflexivity.
Qed.

(** What an accepted trace guarantees. *)
Lemma rebuild_run_sound tr :
  rebuild_run Idle tr = Some Idle ->
  forall before after,
    tr = before ++ water_block_updateCellLinkedList :: after ->
    (exists before', before = before' ++ [periodic_condition_bounding_])
    /\ (exists after',
          after = periodic_condition_update_cell_linked_list_
                    :: water_block_complex_updateConfiguration :: after').
Proof.
  intros Hrun before after ->.
  rewrite rebuild_run_app in Hrun.
  destruct (rebuild_run Idle before) as [q|] eqn:Hb; [|discriminate].
  simpl in Hrun.
  destruct q; simpl in Hrun; try discriminate.
  split.
  - destruct (rebuild_run_bounded _ _ Hb) as [[_ ?]|?]; [discriminate | assumption].
  - destruct after as [|c1 after]; [discriminate|].
    simpl in Hrun. destruct c1; simpl in Hrun; try discriminate.
    destruct after as [|c2 after]; [discriminate|].
    simpl in Hrun. destruct c2; simpl in Hrun; try discriminate.
    now exists after.
Qed.

End RebuildBracket.

(** ** The claims *)

(** *** Step size and accumulated time (C1) *)

(** The same advection interval and acoustic bound in the free-stream driver:
    the second step is clipped to the two fifths that remain. *)
Example free_stream_sub_loop_clips :
  let r := FreeStream.acoustic_loop Scenarios.still (fun _ _ => 3 # 5) 2 1
             (Scenarios.free_stream_start tt) in
  is_finished r = true
  /\ Forall2 Qeq (FreeStream.step_sizes (FreeStream.log (reached r))) [3 # 5; 2 # 5]
  /\ FreeStream.relaxation_time (reached r) == 1.
Proof.
  vm_compute. split; [reflexivity|]. split; [|reflexivity].
  repeat constructor.
Qed.

(** C1.  In the Poiseuille driver the sub-step is the minimum of the acoustic
    bound and the whole of [Dt], not of what remains of it: with [Dt = 1] and
    an acoustic bound of three fifths the sub-loop takes two steps of three
    fifths each and leaves with six fifths accumulated, past [Dt]. *)
Theorem poiseuille_sub_loop_overshoots :
  let r := Poiseuille.acoustic_loop Scenarios.still (fun _ _ => 3 # 5) 2 1
             (Scenarios.poiseuille_start tt) in
  is_finished r = true
  /\ Poiseuille.step_sizes (Poiseuille.log (reached r)) = [3 # 5; 3 # 5]
  /\ Poiseuille.relaxation_time (reached r) == 6 # 5
  /\ 1 < Poiseuille.relaxation_time (reached r).
Proof. vm_compute. repeat split; reflexivity. Qed.

(** *** Non-positive bounds (C2) *)

(** C2, as stated, fails: with an acoustic reduction that returns zero the
    free-stream driver runs both integration phases with a zero step, twice
    in two iterations, and is still in the sub-loop. *)
Lemma non_positive_bound_is_not_fatal :
  let aco := fun (_ : Real) (_ : unit) => 0 in
  let r := FreeStream.acoustic_loop Scenarios.still aco 2 1
             (Scenarios.free_stream_start tt) in
  aco 0 tt <= 0
  /\ FreeStream.log (reached r)
     = FreeStream.substep_calls 0 ++ FreeStream.substep_calls 0
  /\ is_finished r = false.
Proof. vm_compute. repeat split; try reflexivity. discriminate. Qed.

Lemma fs_non_positive_acoustic_bound
    (W : Type) exec aco Dt (s : FreeStream.frame W) :
  FreeStream.relaxation_time s < Dt ->
  aco (FreeStream.physical_time_ s) (FreeStream.world s) <= 0 ->
  let s1 := FreeStream.acoustic_step exec aco Dt s in
  FreeStream.log s1
  = FreeStream.log s
    ++ FreeStream.substep_calls (aco (FreeStream.physical_time_ s) (FreeStream.world s))
  /\ FreeStream.relaxation_time s1 <= FreeStream.relaxation_time s
  /\ Rlt (FreeStream.relaxation_time s1) Dt = true.
Proof.
  intros Hlt Hb s1. subst s1.
  rewrite fs_step_log, fs_step_relaxation_time.
  rewrite (SMIN_left (aco (FreeStream.physical_time_ s) (FreeStream.world s))
             (Dt - FreeStream.relaxation_time s)) by lra.
  split; [reflexivity|]. split; [lra|]. apply Rlt_true_iff. lra.
Qed.

Lemma po_non_positive_acoustic_bound
    (W : Type) exec aco Dt (s : Poiseuille.frame W) :
  0 < Dt ->
  Poiseuille.relaxation_time s < Dt ->
  aco (Poiseuille.physical_time_ s) (Poiseuille.world s) <= 0 ->
  let s1 := Poiseuille.acoustic_step exec aco Dt s in
  Poiseuille.log s1
  = Poiseuille.log s
    ++ Poiseuille.substep_calls (aco (Poiseuille.physical_time_ s) (Poiseuille.world s))
  /\ Poiseuille.relaxation_time s1 <= Poiseuille.relaxation_time s
  /\ Rlt (Poiseuille.relaxation_time s1) Dt = true.
Proof.
  intros Hpos Hlt Hb s1. subst s1.
  rewrite po_step_log, po_step_relaxation_time.
  rewrite (SMIN_left (aco (Poiseuille.physical_time_ s) (Poiseuille.world s)) Dt) by lra.
  split; [reflexivity|]. split; [lra|]. apply Rlt_true_iff. lra.
Qed.

Lemma fs_non_positive_advection_bound
    (W : Type) exec adv aco fuel (s : FreeStream.frame W) :
  adv (FreeStream.physical_time_ s)
      (exec FreeStream.initialize_a_fluid_step (FreeStream.physical_time_ s)
         (FreeStream.world s)) <= 0 ->
  exists s1 scr,
    FreeStream.macro_step exec adv aco fuel s = Finished s1
    /\ FreeStream.log s1
       = FreeStream.log s ++ FreeStream.pre_physics_calls ++ scr
         ++ FreeStream.refresh_calls
    /\ FreeStream.step_sizes scr = []
    /\ FreeStream.integration_time s1 = FreeStream.integration_time s
    /\ FreeStream.physical_time_ s1 = FreeStream.physical_time_ s.
Proof.
  intro Hb. rewrite fs_macro_step_eq.
  rewrite fs_loop_exit by (apply Rlt_false_iff; exact Hb).
  cbn [and_then].
  destruct (fs_post_physics_log W exec
              (fst (FreeStream.pre_physics exec adv s))
              (snd (FreeStream.pre_physics exec adv s))) as (scr & Hlog & Hscr).
  eexists. exists scr. split; [reflexivity|].
  rewrite Hlog, fs_pre_physics_log. split; [now rewrite <- !app_assoc|].
  split; [destruct Hscr as [->| ->]; reflexivity|].
  unfold FreeStream.post_physics.
  destruct (_ =? 0)%Z; split; reflexivity.
Qed.

Lemma po_non_positive_advection_bound
    (W : Type) exec adv aco fuel (s : Poiseuille.frame W) :
  adv (Poiseuille.physical_time_ s)
      (exec Poiseuille.initialize_a_fluid_step (Poiseuille.physical_time_ s)
         (Poiseuille.world s)) <= 0 ->
  exists s1 Dt scr,
    Poiseuille.macro_step exec adv aco fuel s = Finished s1
    /\ Poiseuille.log s1
       = Poiseuille.log s ++ Poiseuille.pre_physics_calls Dt ++ scr
         ++ Poiseuille.refresh_calls
    /\ Poiseuille.step_sizes scr = []
    /\ Poiseuille.integration_time s1 = Poiseuille.integration_time s
    /\ Poiseuille.physical_time_ s1 = Poiseuille.physical_time_ s.
Proof.
  intro Hb. rewrite po_macro_step_eq.
  rewrite po_loop_exit by (apply Rlt_false_iff; exact Hb).
  cbn [and_then].
  destruct (po_post_physics_log W exec
              (fst (Poiseuille.pre_physics exec adv s))
              (snd (Poiseuille.pre_physics exec adv s))) as (scr & Hlog & Hscr).
  eexists. eexists. exists scr. split; [reflexivity|].
  rewrite Hlog, po_pre_physics_log. split; [now rewrite <- !app_assoc|].
  split.
  { destruct Hscr as [->|[(N & T & dt & ->)|(N & T & dt & ->)]]; reflexivity. }
  unfold Poiseuille.post_physics.
  destruct (_ =? 0)%Z; [|split; reflexivity].
  cbn [Poiseuille.number_of_iterations Poiseuille.run].
  destruct (_ =? 0)%Z; split; reflexivity.
Qed.

(** C2, amended.  The drivers do not examine what a reduction returns.  In a
    sub-step whose acoustic reduction returns a bound that is not positive,
    both integration phases run with that bound as their step, the
    accumulated time does not advance and the condition of the sub-loop
    still holds afterwards; this in both drivers.  When the advection
    reduction returns a bound that is not positive, the sub-loop runs no
    iteration and the macro step goes through its configuration refresh
    without advancing the clocks; this too in both drivers. *)
Theorem non_positive_bound_is_integrated
    (W : Type) exec adv aco (W' : Type) exec' adv' aco'
    (Dt : Real) fuel (s s0 : FreeStream.frame W) (s' s0' : Poiseuille.frame W') :
  0 < Dt ->
  FreeStream.relaxation_time s < Dt ->
  aco (FreeStream.physical_time_ s) (FreeStream.world s) <= 0 ->
  Poiseuille.relaxation_time s' < Dt ->
  aco' (Poiseuille.physical_time_ s') (Poiseuille.world s') <= 0 ->
  adv (FreeStream.physical_time_ s0)
      (exec FreeStream.initialize_a_fluid_step (FreeStream.physical_time_ s0)
         (FreeStream.world s0)) <= 0 ->
  adv' (Poiseuille.physical_time_ s0')
       (exec' Poiseuille.initialize_a_fluid_step (Poiseuille.physical_time_ s0')
          (Poiseuille.world s0')) <= 0 ->
  (let s1 := FreeStream.acoustic_step exec aco Dt s in
   FreeStream.log s1
   = FreeStream.log s
     ++ FreeStream.substep_calls (aco (FreeStream.physical_time_ s) (FreeStream.world s))
   /\ FreeStream.relaxation_time s1 <= FreeStream.relaxation_time s
   /\ Rlt (FreeStream.relaxation_time s1) Dt = true)
  /\ (let s1 := Poiseuille.acoustic_step exec' aco' Dt s' in
      Poiseuille.log s1
      = Poiseuille.log s'
        ++ Poiseuille.substep_calls
             (aco' (Poiseuille.physical_time_ s') (Poiseuille.world s'))
      /\ Poiseuille.relaxation_time s1 <= Poiseuille.relaxation_time s'
      /\ Rlt (Poiseuille.relaxation_time s1) Dt = true)
  /\ (exists s1 scr,
        FreeStream.macro_step exec adv aco fuel s0 = Finished s1
        /\ FreeStream.log s1
           = FreeStream.log s0 ++ FreeStream.pre_physics_calls ++ scr
             ++ FreeStream.refresh_calls
        /\ FreeStream.step_sizes scr = []
        /\ FreeStream.integration_time s1 = FreeStream.integration_time s0
        /\ FreeStream.physical_time_ s1 = FreeStream.physical_time_ s0)
  /\ (exists s1 Dt0 scr,
        Poiseuille.macro_step exec' adv' aco' fuel s0' = Finished s1
        /\ Poiseuille.log s1
           = Poiseuille.log s0' ++ Poiseuille.pre_physics_calls Dt0 ++ scr
             ++ Poiseuille.refresh_calls
        /\ Poiseuille.step_sizes scr = []
        /\ Poiseuille.integration_time s1 = Poiseuille.integration_time s0'
        /\ Poiseuille.physical_time_ s1 = Poiseuille.physical_time_ s0').
Proof.
  intros HDt Hlt Hb Hlt' Hb' Hadv Hadv'.
  split; [now apply fs_non_positive_acoustic_bound|].
  split; [now apply po_non_positive_acoustic_bound|].
  split; [now apply fs_non_positive_advection_bound|].
  now apply po_non_positive_advection_bound.
Qed.

Lemma non_positive_bound_is_integrated_witness :
  let aco := fun (_ : Real) (_ : unit) => - (1 # 2) in
  let s := Scenarios.free_stream_start tt in
  let s1 := FreeStream.acoustic_step Scenarios.still aco 1 s in
  FreeStream.log s1 = FreeStream.log s ++ FreeStream.substep_calls (- (1 # 2))
  /\ FreeStream.relaxation_time s1 <= FreeStream.relaxation_time s
  /\ Rlt (FreeStream.relaxation_time s1) 1 = true.
Proof.
  refine (proj1 (non_positive_bound_is_integrated
                   unit Scenarios.still (fun _ _ => 0) (fun _ _ => - (1 # 2))
                   unit Scenarios.still (fun _ _ => 0) (fun _ _ => 0)
                   1 1%nat (Scenarios.free_stream_start tt) (Scenarios.free_stream_start tt)
                   (Scenarios.poiseuille_start tt) (Scenarios.poiseuille_start tt)
                   _ _ _ _ _ _ _));
    vm_compute; solve [reflexivity | discriminate].
Defined.

(** *** Re-derivation of the relations after the refresh (C3) *)

(** C3.  In every run of the free-stream driver, whenever a call of the
    configuration refresh (injection, deletion, rebuild of the cell linked
    list) has changed a body and a later call reads a relation that touches
    this body, [updateConfiguration] has re-derived the relation in between. *)
Theorem refresh_rederives_before_use
    (W : Type) exec adv aco fuel (w : W) t0
    (before : list FreeStream.call) m mid c after r b :
  FreeStream.log (reached (FreeStream.simulation exec adv aco fuel w t0))
  = before ++ m :: mid ++ c :: after ->
  In b (FreeStream.refreshes m) ->
  FreeStream.touches r b = true ->
  In r (FreeStream.consumes c) ->
  exists u, In u mid /\ In r (FreeStream.updates u).
Proof.
  intros Hlog Hb Ht Hc.
  pose proof (fs_simulation_stages W exec adv aco fuel w t0) as Hst.
  destruct (monitor_stages _ Hst FreeStream.nothing_pending nothing_pending_calm)
    as (p' & Hrun & _).
  exact (monitor_sound FreeStream.refreshes _ _ _ Hrun _ _ _ _ _ _ _ Hlog Hb Ht Hc).
Qed.

Lemma refresh_rederives_before_use_witness :
  exists u,
    In u [FreeStream.water_block_complex_updateConfiguration;
          FreeStream.cylinder_contact_updateConfiguration;
          FreeStream.compute_vorticity; FreeStream.write_real_body_states;
          FreeStream.write_total_viscous_force_on_inserted_body 1;
          FreeStream.write_total_force_on_inserted_body 1;
          FreeStream.fluid_observer_contact_updateConfiguration]
    /\ In FreeStream.fluid_observer_contact (FreeStream.updates u).
Proof.
  apply (refresh_rederives_before_use
           unit Scenarios.still (fun _ _ => 1) (fun _ _ => 1) 3 tt 0
           ([FreeStream.initializeSystemCellLinkedLists;
             FreeStream.initializeSystemConfigurations;
             FreeStream.cylinder_normal_direction; FreeStream.write_real_body_states]
            ++ FreeStream.pre_physics_calls ++ FreeStream.substep_calls 1
            ++ [FreeStream.screen_output 0 1 1 1; FreeStream.emitter_inflow_injection;
                FreeStream.disposer_outflow_deletion])
           (FreeStream.updateCellLinkedListWithParticleSort 100)
           _
           (FreeStream.write_fluid_velocity 1)
           FreeStream.pre_physics_calls
           FreeStream.fluid_observer_contact FreeStream.water_block).
  - vm_compute. reflexivity.
  - simpl. auto.
  - reflexivity.
  - simpl. auto.
Defined.

(** Inside the sub-loop the relations are read again after the second
    integration phase has moved the particles: a monitor that also counts
    particle motion as a change rejects two consecutive sub-steps.  The
    re-derivation is a matter of the refresh alone. *)
Remark sub_steps_read_after_motion dt1 dt2 :
  FreeStream.monitor (fun c => FreeStream.refreshes c ++ FreeStream.moves c)
    FreeStream.nothing_pending
    (FreeStream.substep_calls dt1 ++ FreeStream.substep_calls dt2) = None.
Proof. reflexivity. Qed.

(** *** Termination of the sub-loop (C4) *)

Section DoublePrecision.

Import Stdlib.Floats.Floats.
Import Binary64.

Lemma digits2_pos_bound (m : positive) : (Z.pos m < 2 ^ Z.pos (digits2_pos m))%Z.
Proof.
  induction m as [m IH|m IH|]; cbn [digits2_pos].
  - rewrite Pos2Z.inj_succ, Z.pow_succ_r by lia. lia.
  - rewrite Pos2Z.inj_succ, Z.pow_succ_r by lia. lia.
  - reflexivity.
Qed.

(** What the format allows for the exponent and the mantissa of a finite
    number. *)
Lemma valid_finite s m e :
  valid_binary (S754_finite s m e) = true ->
  (-1074 <= e <= 971 /\ 0 < Z.pos m < 2 ^ 53)%Z.
Proof.
  unfold SpecFloat.valid_binary, bounded, canonical_mantissa, fexp.
  intro H. apply andb_true_iff in H. destruct H as [Hc Hb].
  apply Z.eqb_eq in Hc. apply Z.leb_le in Hb.
  change (SpecFloat.emin prec emax) with (-1074)%Z in Hc.
  change (emax - prec)%Z with 971%Z in Hb.
  change prec with 53%Z in Hc.
  change IntDef.Z.max with Z.max in Hc.
  pose proof (digits2_pos_bound m) as Hd.
  assert (Hdig : (Z.pos (digits2_pos m) <= 53)%Z) by lia.
  split; [lia|]. split; [lia|].
  eapply Z.lt_le_trans; [exact Hd|].
  apply Z.pow_le_mono_r; lia.
Qed.

(** The comparison of the format agrees with the order of the ranks. *)
Lemma SFrank_lt f1 f2 :
  valid_binary f1 = true -> valid_binary f2 = true ->
  SFcompare f1 f2 = Some Lt -> (SFrank f1 < SFrank f2)%Z.
Proof.
  intros V1 V2 H.
  assert (V1' : forall s m e, f1 = S754_finite s m e ->
                  (-1074 <= e <= 971 /\ 0 < Z.pos m < 2 ^ 53)%Z).
  { intros s m e ->. now apply (valid_finite s m e). }
  assert (V2' : forall s m e, f2 = S754_finite s m e ->
                  (-1074 <= e <= 971 /\ 0 < Z.pos m < 2 ^ 53)%Z).
  { intros s m e ->. now apply (valid_finite s m e). }
  clear V1 V2. unfold SFrank. change (2 ^ 64)%Z with (2048 * 2 ^ 53)%Z.
  assert (Hp : (0 < 2 ^ 53)%Z) by lia.
  remember (2 ^ 53)%Z as P eqn:EP. clear EP.
  destruct f1 as [s1|s1| |s1 m1 e1]; try specialize (V1' _ _ _ eq_refl);
    destruct f2 as [s2|s2| |s2 m2 e2]; try specialize (V2' _ _ _ eq_refl);
    cbn [SFcompare] in H; try discriminate.
  all: try (destruct s1; try destruct s2; try discriminate; nia).
  all: try (destruct s2; try discriminate; nia).
  destruct s1, s2; try discriminate; try nia.
  - destruct (Z.compare_spec e1 e2) as [->|Hlt|Hgt]; try discriminate.
    + injection H as H.
      change (Pos.compare_cont Eq m1 m2) with (Pos.compare m1 m2) in H.
      destruct (Pos.compare_spec m1 m2) as [?|?|Hm]; try discriminate.
      apply Pos2Z.pos_lt_pos in Hm.
      apply Z.opp_lt_mono. rewrite !Z.opp_involutive.
      now apply Z.add_lt_mono_l.
    + nia.
  - destruct (Z.compare_spec e1 e2) as [->|Hlt|Hgt]; try discriminate.
    + injection H as H.
      change (Pos.compare_cont Eq m1 m2) with (Pos.compare m1 m2) in H.
      apply Pos.compare_lt_iff, Pos2Z.pos_lt_pos in H.
      now apply Z.add_lt_mono_l.
    + nia.
Qed.

Lemma SFrank_range f :
  valid_binary f = true -> (- 2 ^ 64 <= SFrank f <= 2 ^ 64)%Z.
Proof.
  intro V. destruct f as [s|s| |s m e]; cbn [SFrank].
  - lia.
  - destruct s; lia.
  - lia.
  - apply valid_finite in V. change (2 ^ 64)%Z with (2048 * 2 ^ 53)%Z.
    assert (Hp : (0 < 2 ^ 53)%Z) by lia.
    remember (2 ^ 53)%Z as P eqn:EP. clear EP.
    destruct s; nia.
Qed.

Lemma ltb_rank (x y : float) : (x <? y)%float = true -> (rank x < rank y)%Z.
Proof.
  rewrite ltb_spec. unfold SFltb, rank. intro H.
  apply SFrank_lt; try apply Prim2SF_valid.
  destruct (SFcompare (Prim2SF x) (Prim2SF y)) as [[| |]|]; try discriminate.
  reflexivity.
Qed.

Lemma rank_range (x : float) : (- 2 ^ 64 <= rank x <= 2 ^ 64)%Z.
Proof. apply SFrank_range, Prim2SF_valid. Qed.

Variable World : Type.

(** A loop whose steps all advance the accumulated time climbs through the
    ranks of the numbers below [Dt], and there are finitely many of them. *)
Lemma advancing_loop_finishes
    (dt_of : float -> frame World -> float) (step : float -> frame World -> frame World) :
  (forall Dt s, relaxation_time (step Dt s) = (relaxation_time s + dt_of Dt s)%float) ->
  forall (n : nat) Dt (s : frame World),
    (rank Dt - rank (relaxation_time s) <= Z.of_nat n)%Z ->
    (forall k, advancing dt_of step k Dt s = true) ->
    is_finished (sub_loop step n Dt s) = true.
Proof.
  intros Hstep. induction n as [|n IH]; intros Dt s Hrank Hadv.
  - cbn [sub_loop]. destruct (relaxation_time s <? Dt)%float eqn:E; [|reflexivity].
    apply ltb_rank in E. lia.
  - cbn [sub_loop]. destruct (relaxation_time s <? Dt)%float eqn:E; [|reflexivity].
    apply IH.
    + pose proof (Hadv 1%nat) as H1. cbn [advancing] in H1. rewrite E in H1.
      apply andb_true_iff in H1. destruct H1 as [H1 _].
      apply ltb_rank in H1. rewrite Hstep. lia.
    + intro k. pose proof (Hadv (S k)) as Hk. cbn [advancing] in Hk. rewrite E in Hk.
      apply andb_true_iff in Hk. now destruct Hk.
Qed.

Lemma advancing_loop_terminates
    (dt_of : float -> frame World -> float) (step : float -> frame World -> frame World) :
  (forall Dt s, relaxation_time (step Dt s) = (relaxation_time s + dt_of Dt s)%float) ->
  forall Dt (s : frame World),
    (forall k, advancing dt_of step k Dt s = true) ->
    exists fuel : nat,
      (Z.of_nat fuel <= 2 ^ 65)%Z /\ is_finished (sub_loop step fuel Dt s) = true.
Proof.
  intros Hstep Dt s Hadv.
  pose proof (rank_range Dt) as HD. pose proof (rank_range (relaxation_time s)) as Hr.
  exists (Z.to_nat (rank Dt - rank (relaxation_time s))). split; [lia|].
  apply (advancing_loop_finishes dt_of step Hstep); [lia | exact Hadv].
Qed.

End DoublePrecision.

Section DoublePrecisionRuns.

Import Stdlib.Floats.Floats.

(** C4, as stated, fails in the arithmetic of the drivers: a positive step
    that is less than half the distance from the accumulated time to the
    next [double] leaves the accumulated time as it is.  With [Dt = 2] and
    the bounds 1 and then 2^-60, all positive and none below 2^-60, the first
    sub-step brings the accumulated time to 1 and every later one leaves it
    there: either sub-loop is still running after any number of
    iterations. *)
Lemma absorbed_steps_never_finish :
  (forall t w, (0 <? Binary64.one_then_tiny t w)%float = true
               /\ (0x1p-60 <=? Binary64.one_then_tiny t w)%float = true)
  /\ (forall fuel,
        is_finished
          (Binary64.free_stream_loop Binary64.still Binary64.one_then_tiny fuel 2
             Binary64.start) = false)
  /\ (forall fuel,
        is_finished
          (Binary64.poiseuille_loop Binary64.still Binary64.one_then_tiny fuel 2
             Binary64.start) = false).
Proof.
  split; [|split].
  - intros t w. unfold Binary64.one_then_tiny.
    destruct (t <? 1)%float; split; reflexivity.
  - assert (Hstuck : forall fuel,
              is_finished
                (Binary64.free_stream_loop Binary64.still Binary64.one_then_tiny fuel 2
                   (Binary64.free_stream_step Binary64.still Binary64.one_then_tiny 2
                      Binary64.start)) = false).
    { induction fuel as [|fuel IH]; [reflexivity|]. exact IH. }
    intros [|fuel]; [reflexivity | apply Hstuck].
  - assert (Hstuck : forall fuel,
              is_finished
                (Binary64.poiseuille_loop Binary64.still Binary64.one_then_tiny fuel 2
                   (Binary64.poiseuille_step Binary64.still Binary64.one_then_tiny 2
                      Binary64.start)) = false).
    { induction fuel as [|fuel IH]; [reflexivity|]. exact IH. }
    intros [|fuel]; [reflexivity | apply Hstuck].
Qed.

(** Bounds that shrink do not by themselves keep a sub-loop from ending, as
    they would in exact arithmetic: with [Dt = 1] and the bounds 1/2, 1/4,
    1/8, ..., whose sum stays below 1, the 54th sub-step of the free-stream
    loop rounds the accumulated time up to 1, and the loop ends. *)
Remark halving_bounds_finish_in_double_precision :
  let loop := Binary64.free_stream_loop Binary64.halve (fun _ w => w) in
  is_finished (loop 53%nat 1%float Binary64.start_halving) = false
  /\ is_finished (loop 54%nat 1%float Binary64.start_halving) = true
  /\ Binary64.relaxation_time (reached (loop 54%nat 1%float Binary64.start_halving))
     = 1%float.
Proof. vm_compute. repeat split. Qed.

(** C4, amended.  When every iteration that a sub-loop executes leaves the
    accumulated relaxation time strictly greater than it found it, as the
    machine computes the sum, the sub-loop of either driver terminates: the
    accumulated time climbs through the [double]s below [Dt], of which there
    are fewer than 2^65. *)
Theorem sub_loop_terminates_when_steps_advance
    (W : Type) exec aco (W' : Type) exec' aco'
    Dt Dt' (s : Binary64.frame W) (s' : Binary64.frame W') :
  (forall n,
     Binary64.advancing (Binary64.free_stream_dt aco)
       (Binary64.free_stream_step exec aco) n Dt s = true) ->
  (forall n,
     Binary64.advancing (Binary64.poiseuille_dt aco')
       (Binary64.poiseuille_step exec' aco') n Dt' s' = true) ->
  (exists fuel : nat,
     (Z.of_nat fuel <= 2 ^ 65)%Z
     /\ is_finished (Binary64.free_stream_loop exec aco fuel Dt s) = true)
  /\ (exists fuel : nat,
        (Z.of_nat fuel <= 2 ^ 65)%Z
        /\ is_finished (Binary64.poiseuille_loop exec' aco' fuel Dt' s') = true).
Proof.
  intros Hfs Hpo. split.
  - apply (advancing_loop_terminates W (Binary64.free_stream_dt aco)
             (Binary64.free_stream_step exec aco)); [|exact Hfs].
    reflexivity.
  - apply (advancing_loop_terminates W' (Binary64.poiseuille_dt aco')
             (Binary64.poiseuille_step exec' aco')); [|exact Hpo].
    reflexivity.
Qed.

(** Four steps of a quarter each reach [Dt = 1]. *)
Lemma sub_loop_terminates_when_steps_advance_witness :
  (exists fuel : nat,
     (Z.of_nat fuel <= 2 ^ 65)%Z
     /\ is_finished
          (Binary64.free_stream_loop Binary64.still (fun _ _ => 0.25%float) fuel 1
             Binary64.start) = true)
  /\ (exists fuel : nat,
        (Z.of_nat fuel <= 2 ^ 65)%Z
        /\ is_finished
             (Binary64.poiseuille_loop Binary64.still (fun _ _ => 0.25%float) fuel 1
                Binary64.start) = true).
Proof.
  apply (sub_loop_terminates_when_steps_advance
           unit Binary64.still (fun _ _ => 0.25%float)
           unit Binary64.still (fun _ _ => 0.25%float) 1 1 Binary64.start Binary64.start).
  - intro n. do 5 (try destruct n as [|n]); reflexivity.
  - intro n. do 5 (try destruct n as [|n]); reflexivity.
Defined.

End DoublePrecisionRuns.

(** *** Order of the two integration phases (C5) *)

(** C5.  Every acoustic sub-step of the free-stream driver runs, after the
    acoustic reduction, the first phase (pressure relaxation) with step [dt],
    then the registered post-process (the free-stream velocity correction),
    then the second phase (density relaxation) with the same [dt], each on
    the world the previous one has left; and the sub-loop is a succession of
    such sub-steps.  In the Poiseuille driver, too, the first phase comes
    before the second one and both take the same [dt]. *)
Theorem two_phase_order
    (W : Type) exec aco (Dt : Real) (s : FreeStream.frame W)
    (W' : Type) exec' aco' (Dt' : Real) (s' : Poiseuille.frame W') :
  let dt := SMIN (aco (FreeStream.physical_time_ s) (FreeStream.world s))
                 (Dt - FreeStream.relaxation_time s) in
  let s1 := FreeStream.acoustic_step exec aco Dt s in
  let dt' := SMIN (aco' (Poiseuille.physical_time_ s') (Poiseuille.world s')) Dt' in
  FreeStream.log s1
  = FreeStream.log s
    ++ [FreeStream.get_fluid_time_step_size; FreeStream.pressure_relaxation dt;
        FreeStream.velocity_boundary_condition_constraint;
        FreeStream.density_relaxation dt; FreeStream.emitter_buffer_inflow_condition]
  /\ FreeStream.world s1
     = (let t := FreeStream.physical_time_ s in
        exec FreeStream.emitter_buffer_inflow_condition (t + dt)
          (exec (FreeStream.density_relaxation dt) t
             (exec FreeStream.velocity_boundary_condition_constraint t
                (exec (FreeStream.pressure_relaxation dt) t
                   (exec FreeStream.get_fluid_time_step_size t (FreeStream.world s))))))
  /\ (forall fuel, exists dts,
        FreeStream.log (reached (FreeStream.acoustic_loop exec aco fuel Dt s))
        = FreeStream.log s
          ++ flat_map (fun d =>
                         [FreeStream.get_fluid_time_step_size;
                          FreeStream.pressure_relaxation d;
                          FreeStream.velocity_boundary_condition_constraint;
                          FreeStream.density_relaxation d;
                          FreeStream.emitter_buffer_inflow_condition]) dts)
  /\ Poiseuille.log (Poiseuille.acoustic_step exec' aco' Dt' s')
     = Poiseuille.log s'
       ++ [Poiseuille.get_fluid_time_step_size; Poiseuille.pressure_relaxation dt';
           Poiseuille.viscous_acceleration dt'; Poiseuille.density_relaxation dt'].
Proof.
  intros dt s1 dt'. split; [apply fs_step_log|]. split; [reflexivity|].
  split; [|apply po_step_log].
  intro fuel. destruct (fs_loop_trace W exec aco fuel Dt s) as (dts & Hlog & _).
  now exists dts.
Qed.

(** *** Order of the stages of a macro step (C6) *)

Lemma fs_rest_has_no_pre_physics dts post :
  post = [] \/ post = FreeStream.refresh_calls
  \/ (exists N T Dt i, post = FreeStream.screen_output N T Dt i :: FreeStream.refresh_calls) ->
  existsb FreeStream.is_pre_physics_call
    (flat_map FreeStream.substep_calls dts ++ post) = false.
Proof.
  intro Hpost. rewrite existsb_app. apply orb_false_iff. split.
  - induction dts as [|dt dts IH]; [reflexivity|].
    cbn [flat_map]. rewrite existsb_app, IH. reflexivity.
  - destruct Hpost as [->|[->|(N & T & Dt & i & ->)]]; reflexivity.
Qed.

Lemma po_rest_has_no_pre_physics dts post :
  post = [] \/ post = Poiseuille.refresh_calls
  \/ (exists N T Dt dt, post = Poiseuille.screen_output N T Dt dt :: Poiseuille.refresh_calls)
  \/ (exists N T Dt dt,
        post = Poiseuille.screen_output N T Dt dt :: Poiseuille.restart_io N
               :: Poiseuille.refresh_calls) ->
  existsb Poiseuille.is_pre_physics_call
    (flat_map Poiseuille.substep_calls dts ++ post) = false.
Proof.
  intro Hpost. rewrite existsb_app. apply orb_false_iff. split.
  - induction dts as [|dt dts IH]; [reflexivity|].
    cbn [flat_map]. rewrite existsb_app, IH. reflexivity.
  - destruct Hpost as [->|[->|[(N & T & Dt & dt & ->)|(N & T & Dt & dt & ->)]]];
      reflexivity.
Qed.

(** C6, as stated, fails: the macro step does not begin with the advection
    reduction.  In a run of the free-stream driver the first call is the
    pointwise update [initialize_a_fluid_step], the reduction is the second,
    and nowhere in the macro step does the reduction come before the
    update.  In a run of the Poiseuille driver the order of the two is the
    same, and the acoustic sub-loop begins, with its reduction, right after
    the transport-velocity correction: no viscous acceleration has been
    computed by then. *)
Lemma reduction_is_not_first :
  let tr := FreeStream.log
              (reached (FreeStream.macro_step Scenarios.still (fun _ _ => 1) (fun _ _ => 1) 1
                          (Scenarios.free_stream_start tt))) in
  let tr' := Poiseuille.log
               (reached (Poiseuille.macro_step Scenarios.still (fun _ _ => 1) (fun _ _ => 1) 1
                           (Scenarios.poiseuille_start tt))) in
  nth_error tr 0 = Some FreeStream.initialize_a_fluid_step
  /\ nth_error tr 1 = Some FreeStream.get_fluid_advection_time_step_size
  /\ ~ occurs_before FreeStream.get_fluid_advection_time_step_size
         FreeStream.initialize_a_fluid_step tr
  /\ firstn 5 tr'
     = [Poiseuille.initialize_a_fluid_step; Poiseuille.get_fluid_advection_time_step_size;
        Poiseuille.update_density_by_summation; Poiseuille.transport_velocity_correction 1;
        Poiseuille.get_fluid_time_step_size].
Proof.
  split; [reflexivity|]. split; [reflexivity|]. split; [|reflexivity].
  intros (l1 & l2 & l3 & H).
  match type of H with
  | ?lhs = _ => let v := eval vm_compute in lhs in change lhs with v in H
  end.
  assert (Hin : In FreeStream.initialize_a_fluid_step
                  (l2 ++ FreeStream.initialize_a_fluid_step :: l3))
    by (apply in_or_app; right; now left).
  destruct l1 as [|c l1]; [discriminate|].
  injection H as _ H.
  assert (Hin' : In FreeStream.initialize_a_fluid_step
                   (l1 ++ FreeStream.get_fluid_advection_time_step_size :: l2
                       ++ FreeStream.initialize_a_fluid_step :: l3))
    by (apply in_or_app; right; right; exact Hin).
  rewrite <- H in Hin'. simpl in Hin'.
  repeat (destruct Hin' as [Hin'|Hin']; [discriminate|]). exact Hin'.
Qed.

(** C6, amended.  Every macro step begins with the pointwise update
    [initialize_a_fluid_step]; the advection reduction that yields [Dt] comes
    second; then come the density summation (in the free-stream driver after
    the surface indicator), the viscous acceleration (free-stream driver
    only) and the transport-velocity correction.  Each of these calls occurs
    once, before the first acoustic sub-step, and not again in the macro
    step. *)
Theorem macro_step_stage_order
    (W : Type) exec adv aco fuel (s : FreeStream.frame W)
    (W' : Type) exec' adv' aco' fuel' (s' : Poiseuille.frame W') :
  (exists dts post,
     FreeStream.log (reached (FreeStream.macro_step exec adv aco fuel s))
     = FreeStream.log s
       ++ [FreeStream.initialize_a_fluid_step;
           FreeStream.get_fluid_advection_time_step_size;
           FreeStream.free_stream_surface_indicator; FreeStream.update_fluid_density;
           FreeStream.viscous_acceleration; FreeStream.transport_velocity_correction]
       ++ flat_map FreeStream.substep_calls dts ++ post
     /\ existsb FreeStream.is_pre_physics_call
          (flat_map FreeStream.substep_calls dts ++ post) = false)
  /\ (exists dts post,
        let Dt := adv' (Poiseuille.physical_time_ s')
                    (exec' Poiseuille.initialize_a_fluid_step (Poiseuille.physical_time_ s')
                       (Poiseuille.world s')) in
        Poiseuille.log (reached (Poiseuille.macro_step exec' adv' aco' fuel' s'))
        = Poiseuille.log s'
          ++ [Poiseuille.initialize_a_fluid_step;
              Poiseuille.get_fluid_advection_time_step_size;
              Poiseuille.update_density_by_summation;
              Poiseuille.transport_velocity_correction Dt]
          ++ flat_map Poiseuille.substep_calls dts ++ post
        /\ existsb Poiseuille.is_pre_physics_call
             (flat_map Poiseuille.substep_calls dts ++ post) = false).
Proof.
  split.
  - destruct (fs_macro_step_trace W exec adv aco fuel s) as (dts & post & Hlog & Hpost).
    exists dts, post. split; [exact Hlog | now apply fs_rest_has_no_pre_physics].
  - destruct (po_macro_step_trace W' exec' adv' aco' fuel' s') as (dts & post & Hlog & Hpost).
    exists dts, post. split; [exact Hlog | now apply po_rest_has_no_pre_physics].
Qed.

(** *** Rate of the viscous acceleration (C7) *)

Lemma fs_no_viscous_in_substeps dts :
  filter FreeStream.is_viscous_acceleration (flat_map FreeStream.substep_calls dts) = [].
Proof.
  induction dts as [|dt dts IH]; [reflexivity|].
  cbn [flat_map]. rewrite filter_app, IH. reflexivity.
Qed.

Lemma po_viscous_once_per_substep dts :
  filter Poiseuille.is_viscous_acceleration (flat_map Poiseuille.substep_calls dts)
  = map Poiseuille.viscous_acceleration dts.
Proof.
  induction dts as [|dt dts IH]; [reflexivity|].
  cbn [flat_map]. rewrite filter_app, IH. reflexivity.
Qed.

(** The log of a sub-loop grows by one sub-step for each iteration that the
    loop executes. *)
Lemma fs_loop_sub_steps (W : Type) exec aco fuel : forall Dt (s : FreeStream.frame W),
  FreeStream.log (reached (FreeStream.acoustic_loop exec aco fuel Dt s))
  = FreeStream.log s
    ++ flat_map FreeStream.substep_calls (FreeStream.sub_steps exec aco fuel Dt s).
Proof.
  induction fuel as [|fuel IH]; intros Dt s;
    cbn [FreeStream.acoustic_loop FreeStream.sub_steps];
    destruct (Rlt (FreeStream.relaxation_time s) Dt);
    cbn [reached flat_map]; rewrite ?app_nil_r; try reflexivity.
  rewrite IH, fs_step_log. now rewrite <- app_assoc.
Qed.

Lemma po_loop_sub_steps (W : Type) exec aco fuel : forall Dt (s : Poiseuille.frame W),
  Poiseuille.log (reached (Poiseuille.acoustic_loop exec aco fuel Dt s))
  = Poiseuille.log s
    ++ flat_map Poiseuille.substep_calls (Poiseuille.sub_steps exec aco fuel Dt s).
Proof.
  induction fuel as [|fuel IH]; intros Dt s;
    cbn [Poiseuille.acoustic_loop Poiseuille.sub_steps];
    destruct (Rlt (Poiseuille.relaxation_time s) Dt);
    cbn [reached flat_map]; rewrite ?app_nil_r; try reflexivity.
  rewrite IH, po_step_log. now rewrite <- app_assoc.
Qed.

(** C7.  Let [dts] be the step sizes of the iterations that the sub-loop of
    a macro step executes, one for each execution of its body.  In the
    free-stream driver the viscous acceleration is called once, in the pass
    before the sub-loop, and in none of these iterations, however many they
    are.  In the Poiseuille driver it is not called before the sub-loop; it
    is called once in each of these iterations, between the two integration
    phases and with the step size of that iteration.  The scheme of the
    macro step fixes neither: for one and the same schedule, a macro step of
    two sub-steps, the first driver makes one call and the second two. *)
Theorem viscous_acceleration_rates
    (W : Type) exec adv aco fuel (s : FreeStream.frame W)
    (W' : Type) exec' adv' aco' fuel' (s' : Poiseuille.frame W') :
  (let dts := FreeStream.sub_steps exec aco fuel
                (fst (FreeStream.pre_physics exec adv s))
                (snd (FreeStream.pre_physics exec adv s)) in
   exists post,
     FreeStream.log (reached (FreeStream.macro_step exec adv aco fuel s))
     = FreeStream.log s ++ FreeStream.pre_physics_calls
       ++ flat_map FreeStream.substep_calls dts ++ post
     /\ filter FreeStream.is_viscous_acceleration FreeStream.pre_physics_calls
        = [FreeStream.viscous_acceleration]
     /\ filter FreeStream.is_viscous_acceleration
          (flat_map FreeStream.substep_calls dts ++ post) = [])
  /\ (let Dt := fst (Poiseuille.pre_physics exec' adv' s') in
      let dts := Poiseuille.sub_steps exec' aco' fuel' Dt
                   (snd (Poiseuille.pre_physics exec' adv' s')) in
      exists post,
        Poiseuille.log (reached (Poiseuille.macro_step exec' adv' aco' fuel' s'))
        = Poiseuille.log s' ++ Poiseuille.pre_physics_calls Dt
          ++ flat_map (fun dt =>
                         [Poiseuille.get_fluid_time_step_size;
                          Poiseuille.pressure_relaxation dt;
                          Poiseuille.viscous_acceleration dt;
                          Poiseuille.density_relaxation dt]) dts
          ++ post
        /\ filter Poiseuille.is_viscous_acceleration (Poiseuille.pre_physics_calls Dt) = []
        /\ filter Poiseuille.is_viscous_acceleration
             (flat_map Poiseuille.substep_calls dts ++ post)
           = map Poiseuille.viscous_acceleration dts)
  /\ (let fs := FreeStream.log
                  (reached (FreeStream.macro_step Scenarios.still (fun _ _ => 1)
                              (fun _ _ => 1 # 2) 2 (Scenarios.free_stream_start tt))) in
      let po := Poiseuille.log
                  (reached (Poiseuille.macro_step Scenarios.still (fun _ _ => 1)
                              (fun _ _ => 1 # 2) 2 (Scenarios.poiseuille_start tt))) in
      length (FreeStream.step_sizes fs) = 2%nat
      /\ length (filter FreeStream.is_viscous_acceleration fs) = 1%nat
      /\ length (Poiseuille.step_sizes po) = 2%nat
      /\ length (filter Poiseuille.is_viscous_acceleration po) = 2%nat).
Proof.
  split; [|split].
  - intro dts. subst dts. rewrite fs_macro_step_eq.
    pose proof (fs_loop_sub_steps W exec aco fuel
                  (fst (FreeStream.pre_physics exec adv s))
                  (snd (FreeStream.pre_physics exec adv s))) as Hlog.
    rewrite fs_pre_physics_log in Hlog.
    destruct (FreeStream.acoustic_loop exec aco fuel
                (fst (FreeStream.pre_physics exec adv s))
                (snd (FreeStream.pre_physics exec adv s))) as [s1|s1];
      cbn [reached and_then] in *.
    + destruct (fs_post_physics_log W exec (fst (FreeStream.pre_physics exec adv s)) s1)
        as (scr & Hpost & Hscr).
      exists (scr ++ FreeStream.refresh_calls). split; [|split].
      * rewrite Hpost, Hlog. now rewrite <- !app_assoc.
      * reflexivity.
      * rewrite filter_app, fs_no_viscous_in_substeps.
        destruct Hscr as [->| ->]; reflexivity.
    + exists []. split; [|split].
      * rewrite Hlog, app_nil_r. now rewrite <- !app_assoc.
      * reflexivity.
      * rewrite app_nil_r. apply fs_no_viscous_in_substeps.
  - intros Dt dts. subst Dt dts. rewrite po_macro_step_eq.
    pose proof (po_loop_sub_steps W' exec' aco' fuel'
                  (fst (Poiseuille.pre_physics exec' adv' s'))
                  (snd (Poiseuille.pre_physics exec' adv' s'))) as Hlog.
    rewrite po_pre_physics_log in Hlog.
    destruct (Poiseuille.acoustic_loop exec' aco' fuel'
                (fst (Poiseuille.pre_physics exec' adv' s'))
                (snd (Poiseuille.pre_physics exec' adv' s'))) as [s1|s1];
      cbn [reached and_then] in *.
    + destruct (po_post_physics_log W' exec' (fst (Poiseuille.pre_physics exec' adv' s')) s1)
        as (scr & Hpost & Hscr).
      exists (scr ++ Poiseuille.refresh_calls). split; [|split].
      * rewrite Hpost, Hlog. now rewrite <- !app_assoc.
      * reflexivity.
      * rewrite filter_app, po_viscous_once_per_substep.
        destruct Hscr as [->|[(N & T & dt & ->)|(N & T & dt & ->)]];
          cbn; now rewrite app_nil_r.
    + exists []. split; [|split].
      * rewrite Hlog, app_nil_r. now rewrite <- !app_assoc.
      * reflexivity.
      * rewrite app_nil_r. apply po_viscous_once_per_substep.
  - vm_compute. repeat split.
Qed.

(** *** The rebuild with particle sort (C9) *)

(** What the driver shows of C9: a macro step that finishes its sub-loop
    rebuilds the cell linked list of the water block through
    [updateCellLinkedListWithParticleSort] with argument 100, once, after
    the injection and the deletion and before the two configuration updates,
    whatever the emitter and the disposer have done.  What that call does
    to the particle indices is decided in the library core. *)
Remark refresh_rebuilds_with_sort
    (W : Type) exec adv aco fuel (s s1 : FreeStream.frame W) :
  FreeStream.macro_step exec adv aco fuel s = Finished s1 ->
  exists tr,
    FreeStream.log s1
    = FreeStream.log s ++ tr
      ++ [FreeStream.emitter_inflow_injection; FreeStream.disposer_outflow_deletion;
          FreeStream.updateCellLinkedListWithParticleSort 100;
          FreeStream.water_block_complex_updateConfiguration;
          FreeStream.cylinder_contact_updateConfiguration].
Proof.
  rewrite fs_macro_step_eq. intro H.
  destruct (fs_loop_trace W exec aco fuel
              (fst (FreeStream.pre_physics exec adv s))
              (snd (FreeStream.pre_physics exec adv s))) as (dts & Hlog & _).
  destruct (FreeStream.acoustic_loop exec aco fuel
              (fst (FreeStream.pre_physics exec adv s))
              (snd (FreeStream.pre_physics exec adv s))) as [s2|s2];
    cbn [and_then reached] in *; [|discriminate].
  injection H as <-.
  destruct (fs_post_physics_log W exec (fst (FreeStream.pre_physics exec adv s)) s2)
    as (scr & Hpost & _).
  rewrite fs_pre_physics_log in Hlog.
  exists (FreeStream.pre_physics_calls ++ flat_map FreeStream.substep_calls dts ++ scr).
  change (FreeStream.log
            (FreeStream.post_physics exec (fst (FreeStream.pre_physics exec adv s)) s2)
          = FreeStream.log s
            ++ (FreeStream.pre_physics_calls
                ++ flat_map FreeStream.substep_calls dts ++ scr)
            ++ FreeStream.refresh_calls).
  rewrite Hpost, Hlog. now rewrite <- !app_assoc.
Qed.

(** *** The rebuild of the cell linked list in the Poiseuille driver (C10) *)

Section RecordedRuns.

Import Poiseuille PoiseuilleRecord.

Variable W : Type.
Variable exec : call -> Real -> W -> W.
Variable adv aco : Real -> W -> Real.

Local Abbreviation exec' := (recording exec).
Local Abbreviation adv' := (on_data adv).
Local Abbreviation aco' := (on_data aco).

Local Abbreviation grows s s' h :=
  (continues s s' h /\ follows exec (data (world s)) h (data (world s'))).

Lemma follows_app h1 : forall (w w1 w2 : W) h2,
  follows exec w h1 w1 -> follows exec w1 h2 w2 -> follows exec w (h1 ++ h2) w2.
Proof.
  induction h1 as [|p h1 IH]; intros w w1 w2 h2 H1 H2; cbn [follows app] in *.
  - now subst w1.
  - destruct H1 as (Hp & t & H1). split; [exact Hp|]. exists t.
    now apply (IH _ w1).
Qed.

(** In a record each entry holds what the call of the entry before it has
    returned. *)
Lemma follows_adjacent before : forall (w w' : W) c1 w1 c2 w2 after,
  follows exec w (before ++ (c1, w1) :: (c2, w2) :: after) w' ->
  exists t, w2 = exec c1 t w1.
Proof.
  induction before as [|p before IH]; intros w w' c1 w1 c2 w2 after H;
    cbn [follows app fst snd] in H.
  - destruct H as (-> & t & H2 & _). now exists t.
  - destruct H as (_ & t & H). exact (IH _ _ _ _ _ _ _ H).
Qed.

Lemma grows_refl (s : frame (recorded W)) : grows s s [].
Proof. unfold continues. cbn [map follows]. rewrite !app_nil_r. now repeat split. Qed.

Lemma grows_trans (s s1 s2 : frame (recorded W)) h1 h2 :
  grows s s1 h1 -> grows s1 s2 h2 -> grows s s2 (h1 ++ h2).
Proof.
  unfold continues. intros ((Hl1 & Hh1) & Hf1) ((Hl2 & Hh2) & Hf2).
  rewrite Hl2, Hh2, Hl1, Hh1, map_app, <- !app_assoc.
  repeat split. exact (follows_app _ _ _ _ _ Hf1 Hf2).
Qed.

Lemma grows_run c (s : frame (recorded W)) :
  grows s (run exec' c s) [(c, data (world s))].
Proof.
  repeat split. exists (physical_time_ s). reflexivity.
Qed.

(** A change of the clocks and counters alone adds nothing to the record. *)
Lemma grows_same (s s1 s2 : frame (recorded W)) h :
  grows s s1 h -> log s2 = log s1 -> world s2 = world s1 -> grows s s2 h.
Proof.
  unfold continues. intros ((Hl & Hh) & Hf) El Ew. rewrite El, Ew. now repeat split.
Qed.

Lemma recorded_step Dt (s : frame (recorded W)) :
  exists h, grows s (acoustic_step exec' aco' Dt s) h.
Proof.
  unfold acoustic_step. cbv zeta.
  eexists.
  eapply grows_same; [|reflexivity|reflexivity].
  eapply grows_trans; [apply grows_run|].
  eapply grows_trans; [apply grows_run|].
  eapply grows_trans; [apply grows_run|].
  apply grows_run.
Qed.

Lemma recorded_loop fuel : forall Dt (s : frame (recorded W)),
  exists h, grows s (reached (acoustic_loop exec' aco' fuel Dt s)) h.
Proof.
  induction fuel as [|fuel IH]; intros Dt s; cbn [acoustic_loop];
    destruct (Rlt (relaxation_time s) Dt); cbn [reached];
    try (exists []; apply grows_refl).
  destruct (recorded_step Dt s) as (h1 & H1).
  destruct (IH Dt (acoustic_step exec' aco' Dt s)) as (h2 & H2).
  exists (h1 ++ h2). now apply (grows_trans _ _ _ _ _ H1 H2).
Qed.

Lemma recorded_pre_physics (s : frame (recorded W)) :
  exists h, grows s (snd (pre_physics exec' adv' s)) h.
Proof.
  unfold pre_physics. cbv zeta. cbn [snd].
  eexists.
  eapply grows_same; [|reflexivity|reflexivity].
  eapply grows_trans; [apply grows_run|].
  eapply grows_trans; [apply grows_run|].
  eapply grows_trans; [apply grows_run|].
  apply grows_run.
Qed.

Lemma recorded_refresh (s s1 : frame (recorded W)) h :
  grows s s1 h ->
  exists h',
    grows s
      (run exec' water_block_complex_updateConfiguration
         (run exec' periodic_condition_update_cell_linked_list_
            (run exec' water_block_updateCellLinkedList
               (run exec' periodic_condition_bounding_
                  {| world := world s1;
                     physical_time_ := physical_time_ s1;
                     number_of_iterations := size_t_incr (number_of_iterations s1);
                     dt_ := dt_ s1;
                     integration_time := integration_time s1;
                     relaxation_time := relaxation_time s1;
                     log := log s1 |})))) h'.
Proof.
  intro H.
  pose proof (grows_same s s1
                {| world := world s1;
                   physical_time_ := physical_time_ s1;
                   number_of_iterations := size_t_incr (number_of_iterations s1);
                   dt_ := dt_ s1;
                   integration_time := integration_time s1;
                   relaxation_time := relaxation_time s1;
                   log := log s1 |} h H eq_refl eq_refl) as H0.
  pose proof (grows_trans _ _ _ _ _ H0 (grows_run periodic_condition_bounding_ _)) as H1.
  pose proof (grows_trans _ _ _ _ _ H1 (grows_run water_block_updateCellLinkedList _))
    as H2.
  pose proof (grows_trans _ _ _ _ _ H2
                (grows_run periodic_condition_update_cell_linked_list_ _)) as H3.
  pose proof (grows_trans _ _ _ _ _ H3
                (grows_run water_block_complex_updateConfiguration _)) as H4.
  eexists. exact H4.
Qed.

Lemma recorded_post_physics Dt (s : frame (recorded W)) :
  exists h, grows s (post_physics exec' Dt s) h.
Proof.
  unfold post_physics. cbv zeta.
  destruct (number_of_iterations s mod screen_output_interval =? 0)%Z.
  - cbn [number_of_iterations run].
    destruct (number_of_iterations s mod restart_output_interval =? 0)%Z.
    + apply (recorded_refresh s _ _
               (grows_trans _ _ _ _ _ (grows_run _ s) (grows_run _ _))).
    + apply (recorded_refresh s _ _ (grows_run _ s)).
  - apply (recorded_refresh s _ _ (grows_refl s)).
Qed.

Lemma recorded_macro_step fuel (s : frame (recorded W)) :
  exists h, grows s (reached (macro_step exec' adv' aco' fuel s)) h.
Proof.
  rewrite po_macro_step_eq.
  destruct (recorded_pre_physics s) as (h1 & H1).
  destruct (recorded_loop fuel (fst (pre_physics exec' adv' s))
              (snd (pre_physics exec' adv' s))) as (h2 & H2).
  destruct (acoustic_loop exec' aco' fuel (fst (pre_physics exec' adv' s))
              (snd (pre_physics exec' adv' s))) as [s1|s1]; cbn [and_then reached] in *.
  - destruct (recorded_post_physics (fst (pre_physics exec' adv' s)) s1) as (h3 & H3).
    exists (h1 ++ h2 ++ h3).
    apply (grows_trans _ _ _ _ _ H1). now apply (grows_trans _ _ _ _ _ H2 H3).
  - exists (h1 ++ h2). now apply (grows_trans _ _ _ _ _ H1 H2).
Qed.

Lemma recorded_integration_loop fuel : forall s : frame (recorded W),
  exists h, grows s (reached (integration_loop exec' adv' aco' fuel s)) h.
Proof.
  induction fuel as [|fuel IH]; intro s; cbn [integration_loop];
    destruct (Rlt (integration_time s) Output_Time); cbn [reached];
    try (exists []; apply grows_refl).
  destruct (recorded_macro_step fuel s) as (h1 & H1).
  destruct (macro_step exec' adv' aco' fuel s) as [s1|s1]; cbn [and_then reached] in *.
  - destruct (IH s1) as (h2 & H2).
    exists (h1 ++ h2). now apply (grows_trans _ _ _ _ _ H1 H2).
  - now exists h1.
Qed.

Lemma recorded_time_loop fuel : forall s : frame (recorded W),
  exists h, grows s (reached (time_loop exec' adv' aco' fuel s)) h.
Proof.
  induction fuel as [|fuel IH]; intro s; cbn [time_loop];
    destruct (Rlt (physical_time_ s) end_time); cbn [reached];
    try (exists []; apply grows_refl).
  match goal with
  | |- context [integration_loop exec' adv' aco' fuel ?s0] =>
      destruct (recorded_integration_loop fuel s0) as (h1 & H1);
      destruct (integration_loop exec' adv' aco' fuel s0) as [s1|s1];
      cbn [and_then reached] in *
  end.
  - destruct (IH (run exec' (body_states_recording None) s1)) as (h2 & H2).
    exists (h1 ++ (body_states_recording None, data (world s1)) :: h2).
    apply (grows_trans _ _ _ _ _ H1).
    apply (grows_trans _ _ _ [_] _ (grows_run _ s1) H2).
  - now exists h1.
Qed.

(** *** The record does not change the run *)

Lemma erase_acoustic_loop fuel : forall Dt (s : frame (recorded W)),
  erase_outcome (acoustic_loop exec' aco' fuel Dt s)
  = acoustic_loop exec aco fuel Dt (erase s).
Proof.
  induction fuel as [|fuel IH]; intros Dt s; cbn [acoustic_loop erase relaxation_time];
    destruct (Rlt (relaxation_time s) Dt); try reflexivity.
  apply IH.
Qed.

Lemma erase_post_physics Dt (s : frame (recorded W)) :
  erase (post_physics exec' Dt s) = post_physics exec Dt (erase s).
Proof.
  unfold post_physics. cbv zeta.
  change (number_of_iterations (erase s)) with (number_of_iterations s).
  destruct (number_of_iterations s mod screen_output_interval =? 0)%Z; [|reflexivity].
  change (number_of_iterations (run exec _ (erase s))) with (number_of_iterations s).
  change (number_of_iterations (run exec' _ s)) with (number_of_iterations s).
  destruct (number_of_iterations s mod restart_output_interval =? 0)%Z; reflexivity.
Qed.

Lemma erase_macro_step fuel (s : frame (recorded W)) :
  erase_outcome (macro_step exec' adv' aco' fuel s)
  = macro_step exec adv aco fuel (erase s).
Proof.
  rewrite !po_macro_step_eq.
  change (fst (pre_physics exec adv (erase s))) with (fst (pre_physics exec' adv' s)).
  change (snd (pre_physics exec adv (erase s)))
    with (erase (snd (pre_physics exec' adv' s))).
  rewrite <- erase_acoustic_loop.
  destruct (acoustic_loop exec' aco' fuel (fst (pre_physics exec' adv' s))
              (snd (pre_physics exec' adv' s))); cbn [and_then erase_outcome];
    [now rewrite erase_post_physics | reflexivity].
Qed.

Lemma erase_integration_loop fuel : forall s : frame (recorded W),
  erase_outcome (integration_loop exec' adv' aco' fuel s)
  = integration_loop exec adv aco fuel (erase s).
Proof.
  induction fuel as [|fuel IH]; intro s; cbn [integration_loop erase integration_time];
    destruct (Rlt (integration_time s) Output_Time); try reflexivity.
  change {| world := data (world s); physical_time_ := physical_time_ s;
            number_of_iterations := number_of_iterations s; dt_ := dt_ s;
            integration_time := integration_time s;
            relaxation_time := relaxation_time s; log := log s |}
    with (erase s).
  rewrite <- erase_macro_step.
  destruct (macro_step exec' adv' aco' fuel s); cbn [and_then erase_outcome];
    [apply IH | reflexivity].
Qed.

Lemma erase_time_loop fuel : forall s : frame (recorded W),
  erase_outcome (time_loop exec' adv' aco' fuel s)
  = time_loop exec adv aco fuel (erase s).
Proof.
  induction fuel as [|fuel IH]; intro s; cbn [time_loop erase physical_time_];
    destruct (Rlt (physical_time_ s) end_time); try reflexivity.
  set (s0 := {| world := world s; physical_time_ := physical_time_ s;
                number_of_iterations := number_of_iterations s; dt_ := dt_ s;
                integration_time := 0; relaxation_time := relaxation_time s;
                log := log s |}).
  change (erase_outcome
            (s1 <- integration_loop exec' adv' aco' fuel s0 ;;
             time_loop exec' adv' aco' fuel (run exec' (body_states_recording None) s1))
          = (s1 <- integration_loop exec adv aco fuel (erase s0) ;;
             time_loop exec adv aco fuel (run exec (body_states_recording None) s1))).
  rewrite <- erase_integration_loop.
  destruct (integration_loop exec' adv' aco' fuel s0); cbn [and_then erase_outcome];
    [apply IH | reflexivity].
Qed.

End RecordedRuns.



(** ** Further properties of the drivers *)

(** *** What the screen output reports *)

Lemma fs_post_physics_clocks (W : Type) exec Dt (s : FreeStream.frame W) :
  FreeStream.physical_time_ (FreeStream.post_physics exec Dt s) = FreeStream.physical_time_ s
  /\ FreeStream.integration_time (FreeStream.post_physics exec Dt s)
     = FreeStream.integration_time s.
Proof.
  unfold FreeStream.post_physics. destruct (_ =? 0)%Z; split; reflexivity.
Qed.

Lemma po_post_physics_clocks (W : Type) exec Dt (s : Poiseuille.frame W) :
  Poiseuille.physical_time_ (Poiseuille.post_physics exec Dt s) = Poiseuille.physical_time_ s
  /\ Poiseuille.integration_time (Poiseuille.post_physics exec Dt s)
     = Poiseuille.integration_time s.
Proof.
  unfold Poiseuille.post_physics.
  destruct (_ =? 0)%Z; [|split; reflexivity].
  cbn [Poiseuille.number_of_iterations Poiseuille.run].
  destruct (_ =? 0)%Z; split; reflexivity.
Qed.

Lemma size_t_incr_range (n : Z) : (0 <= size_t_incr n < size_t_max)%Z.
Proof. unfold size_t_incr. apply Z.mod_pos_bound. reflexivity. Qed.

Lemma fs_loop_counter (W : Type) exec aco fuel : forall Dt (s : FreeStream.frame W),
  (0 <= FreeStream.inner_ite_dt s < size_t_max)%Z ->
  exists dts,
    FreeStream.log (reached (FreeStream.acoustic_loop exec aco fuel Dt s))
    = FreeStream.log s ++ flat_map FreeStream.substep_calls dts
    /\ FreeStream.inner_ite_dt (reached (FreeStream.acoustic_loop exec aco fuel Dt s))
       = ((FreeStream.inner_ite_dt s + Z.of_nat (length dts)) mod size_t_max)%Z.
Proof.
  induction fuel as [|fuel IH]; intros Dt s Hrange.
  - exists []. simpl. destruct (Rlt (FreeStream.relaxation_time s) Dt); cbn [reached];
      rewrite app_nil_r, Z.add_0_r, Z.mod_small by exact Hrange; now split.
  - destruct (Rlt (FreeStream.relaxation_time s) Dt) eqn:E.
    + rewrite fs_loop_unfold by exact E.
      destruct (IH Dt (FreeStream.acoustic_step exec aco Dt s)
                  (size_t_incr_range (FreeStream.inner_ite_dt s))) as (dts & Hlog & Hcnt).
      eexists (_ :: dts). rewrite Hlog, fs_step_log. cbn [flat_map].
      rewrite <- app_assoc. split; [reflexivity|].
      rewrite Hcnt.
      change (FreeStream.inner_ite_dt (FreeStream.acoustic_step exec aco Dt s))
        with (size_t_incr (FreeStream.inner_ite_dt s)).
      unfold size_t_incr. rewrite Z.add_mod_idemp_l by (unfold size_t_max; lia).
      f_equal. cbn [length]. lia.
    + exists []. rewrite fs_loop_exit by exact E. cbn [reached flat_map length].
      rewrite app_nil_r, Z.add_0_r, Z.mod_small by exact Hrange. now split.
Qed.

(** X5.  A macro step of the free-stream driver that finishes prints a line when
    the count of macro steps done before it is a multiple of 100, and not
    otherwise; the line carries that count, the physical time reached, the
    advection step and the number of acoustic sub-steps the macro step has
    taken (modulo 2^64). *)
Theorem free_stream_screen_output_reports
    (W : Type) exec adv aco fuel (s s1 : FreeStream.frame W) :
  FreeStream.macro_step exec adv aco fuel s = Finished s1 ->
  exists dts,
    FreeStream.log s1
    = FreeStream.log s ++ FreeStream.pre_physics_calls
      ++ flat_map FreeStream.substep_calls dts
      ++ (if (FreeStream.number_of_iterations s mod 100 =? 0)%Z
          then [FreeStream.screen_output (FreeStream.number_of_iterations s)
                  (FreeStream.physical_time_ s1)
                  (fst (FreeStream.pre_physics exec adv s))
                  (Z.of_nat (length dts) mod size_t_max)]
          else [])
      ++ FreeStream.refresh_calls.
Proof.
  rewrite fs_macro_step_eq. intro H.
  destruct (fs_loop_counter W exec aco fuel
              (fst (FreeStream.pre_physics exec adv s))
              (snd (FreeStream.pre_physics exec adv s)))
    as (dts & Hlog & Hcnt).
  { cbn. unfold size_t_max. lia. }
  destruct (fs_loop_trace W exec aco fuel
              (fst (FreeStream.pre_physics exec adv s))
              (snd (FreeStream.pre_physics exec adv s))) as (_ & _ & _ & _ & _ & Hn).
  destruct (FreeStream.acoustic_loop exec aco fuel
              (fst (FreeStream.pre_physics exec adv s))
              (snd (FreeStream.pre_physics exec adv s))) as [s2|s2];
    cbn [and_then reached] in *; [|discriminate].
  injection H as <-. exists dts.
  rewrite fs_pre_physics_log in Hlog.
  change (FreeStream.inner_ite_dt (snd (FreeStream.pre_physics exec adv s))) with 0%Z in Hcnt.
  change (FreeStream.number_of_iterations (snd (FreeStream.pre_physics exec adv s)))
    with (FreeStream.number_of_iterations s) in Hn.
  rewrite Z.add_0_l in Hcnt.
  match goal with
  | |- context [FreeStream.post_physics exec ?d s2] =>
      destruct (fs_post_physics_clocks W exec d s2) as [Hpp _];
      rewrite Hpp; unfold FreeStream.post_physics
  end.
  rewrite Hn. change FreeStream.screen_output_interval with 100%Z.
  destruct (FreeStream.number_of_iterations s mod 100 =? 0)%Z.
  - cbn [FreeStream.log FreeStream.run]. rewrite Hlog, Hcnt.
    cbn [FreeStream.pre_physics fst]. now rewrite <- !app_assoc.
  - cbn [FreeStream.log FreeStream.run]. rewrite Hlog. now rewrite <- !app_assoc.
Qed.

Lemma free_stream_screen_output_reports_witness :
  let s1 := reached (FreeStream.macro_step Scenarios.still (fun _ _ => 1) (fun _ _ => 3 # 10) 4
                       (Scenarios.free_stream_start tt)) in
  exists dts,
    FreeStream.log s1
    = [] ++ FreeStream.pre_physics_calls
      ++ flat_map FreeStream.substep_calls dts
      ++ (if (0 mod 100 =? 0)%Z
          then [FreeStream.screen_output 0 (FreeStream.physical_time_ s1)
                  (fst (FreeStream.pre_physics Scenarios.still (fun _ _ => 1)
                          (Scenarios.free_stream_start tt)))
                  (Z.of_nat (length dts) mod size_t_max)]
          else [])
      ++ FreeStream.refresh_calls.
Proof.
  intro s1.
  apply (free_stream_screen_output_reports unit Scenarios.still (fun _ _ => 1)
           (fun _ _ => 3 # 10) 4 (Scenarios.free_stream_start tt) s1).
  vm_compute. reflexivity.
Defined.

Lemma last_cons (A : Type) (x d : A) (l : list A) : last (x :: l) d = last l x.
Proof.
  revert x d. induction l as [|y l IH]; intros x d; [reflexivity|].
  change (last (x :: y :: l) d) with (last (y :: l) d).
  now rewrite (IH y d), (IH y x).
Qed.

Lemma po_loop_last (W : Type) exec aco fuel : forall Dt (s : Poiseuille.frame W),
  exists dts,
    Poiseuille.log (reached (Poiseuille.acoustic_loop exec aco fuel Dt s))
    = Poiseuille.log s ++ flat_map Poiseuille.substep_calls dts
    /\ Poiseuille.dt_ (reached (Poiseuille.acoustic_loop exec aco fuel Dt s))
       = last dts (Poiseuille.dt_ s)
    /\ Poiseuille.number_of_iterations
         (reached (Poiseuille.acoustic_loop exec aco fuel Dt s))
       = Poiseuille.number_of_iterations s.
Proof.
  induction fuel as [|fuel IH]; intros Dt s.
  - exists []. simpl. destruct (Rlt (Poiseuille.relaxation_time s) Dt); cbn [reached];
      rewrite app_nil_r; now repeat split.
  - destruct (Rlt (Poiseuille.relaxation_time s) Dt) eqn:E.
    + rewrite po_loop_unfold by exact E.
      destruct (IH Dt (Poiseuille.acoustic_step exec aco Dt s)) as (dts & Hlog & Hdt & Hn).
      eexists (_ :: dts). rewrite Hlog, po_step_log. cbn [flat_map].
      rewrite <- app_assoc. split; [reflexivity|].
      rewrite Hdt, Hn, last_cons. now split.
    + exists []. rewrite po_loop_exit by exact E. cbn [reached flat_map last].
      rewrite app_nil_r. now repeat split.
Qed.

(** X6.  A macro step of the Poiseuille driver that finishes prints a line when
    the count of macro steps done before it is a multiple of 100; the step
    size [dt] on that line is the size of the last sub-step of this macro
    step, and, when the macro step has taken no sub-step, the value left by
    an earlier macro step. *)
Theorem poiseuille_screen_output_reports
    (W : Type) exec adv aco fuel (s s1 : Poiseuille.frame W) :
  Poiseuille.macro_step exec adv aco fuel s = Finished s1 ->
  (Poiseuille.number_of_iterations s mod 100 = 0)%Z ->
  exists dts rest,
    Poiseuille.log s1
    = Poiseuille.log s
      ++ Poiseuille.pre_physics_calls (fst (Poiseuille.pre_physics exec adv s))
      ++ flat_map Poiseuille.substep_calls dts
      ++ Poiseuille.screen_output (Poiseuille.number_of_iterations s)
           (Poiseuille.physical_time_ s1)
           (fst (Poiseuille.pre_physics exec adv s))
           (last dts (Poiseuille.dt_ s))
         :: rest.
Proof.
  rewrite po_macro_step_eq. intros H HN.
  destruct (po_loop_last W exec aco fuel
              (fst (Poiseuille.pre_physics exec adv s))
              (snd (Poiseuille.pre_physics exec adv s)))
    as (dts & Hlog & Hdt & Hn).
  destruct (Poiseuille.acoustic_loop exec aco fuel
              (fst (Poiseuille.pre_physics exec adv s))
              (snd (Poiseuille.pre_physics exec adv s))) as [s2|s2];
    cbn [and_then reached] in *; [|discriminate].
  injection H as <-. exists dts.
  rewrite po_pre_physics_log in Hlog.
  change (Poiseuille.dt_ (snd (Poiseuille.pre_physics exec adv s)))
    with (Poiseuille.dt_ s) in Hdt.
  change (Poiseuille.number_of_iterations (snd (Poiseuille.pre_physics exec adv s)))
    with (Poiseuille.number_of_iterations s) in Hn.
  match goal with
  | |- context [Poiseuille.post_physics exec ?d s2] =>
      destruct (po_post_physics_clocks W exec d s2) as [Hpp _];
      rewrite Hpp; unfold Poiseuille.post_physics
  end.
  rewrite Hn. change Poiseuille.screen_output_interval with 100%Z.
  rewrite HN. cbn [Z.eqb Poiseuille.number_of_iterations Poiseuille.run].
  rewrite Hn.
  destruct (Poiseuille.number_of_iterations s mod Poiseuille.restart_output_interval =? 0)%Z;
    cbn [Poiseuille.log Poiseuille.run]; rewrite Hlog, Hdt;
    cbn [Poiseuille.pre_physics fst]; eexists; rewrite <- !app_assoc;
    cbn [app]; reflexivity.
Qed.

Lemma poiseuille_screen_output_reports_witness :
  let s1 := reached (Poiseuille.macro_step Scenarios.still (fun _ _ => 1) (fun _ _ => 3 # 10) 4
                       (Scenarios.poiseuille_start tt)) in
  exists dts rest,
    Poiseuille.log s1
    = [] ++ Poiseuille.pre_physics_calls
              (fst (Poiseuille.pre_physics Scenarios.still (fun _ _ => 1)
                      (Scenarios.poiseuille_start tt)))
      ++ flat_map Poiseuille.substep_calls dts
      ++ Poiseuille.screen_output 0 (Poiseuille.physical_time_ s1)
           (fst (Poiseuille.pre_physics Scenarios.still (fun _ _ => 1)
                   (Scenarios.poiseuille_start tt)))
           (last dts 0)
         :: rest.
Proof.
  intro s1.
  apply (poiseuille_screen_output_reports unit Scenarios.still (fun _ _ => 1)
           (fun _ _ => 3 # 10) 4 (Scenarios.poiseuille_start tt) s1).
  - vm_compute. reflexivity.
  - reflexivity.
Defined.

(** *** The restart files of the Poiseuille driver *)

Lemma multiple_of_1000_is_multiple_of_100 (N : Z) :
  (N mod 1000 = 0 -> N mod 100 = 0)%Z.
Proof.
  intro H. apply Z.mod_divide in H; [|lia]. destruct H as (k & ->).
  replace (k * 1000)%Z with ((k * 10) * 100)%Z by lia.
  apply Z.mod_mul. lia.
Qed.

Lemma po_no_restart_in_substeps dts M :
  ~ In (Poiseuille.restart_io M) (flat_map Poiseuille.substep_calls dts).
Proof.
  induction dts as [|dt dts IH]; [intros []|].
  cbn [flat_map]. intro H. apply in_app_or in H. destruct H as [H|H]; [|auto].
  simpl in H. repeat (destruct H as [H|H]; [discriminate|]). exact H.
Qed.



(** *** The configuration of the Poiseuille case *)

Lemma fresh_stage b :
  Poiseuille.stage b ->
  run_automaton PoiseuilleRelation.fresh_step false b = Some false.
Proof. destruct 1; reflexivity. Qed.

Lemma fresh_stages tr :
  stages Poiseuille.stage tr ->
  run_automaton PoiseuilleRelation.fresh_step false tr = Some false.
Proof.
  intro Htr.
  destruct (run_automaton_stages _ Poiseuille.stage _ PoiseuilleRelation.fresh_step
              (fun q => q = false)) with (tr := tr) (q := false) as (q' & Hrun & ->); auto.
  intros b Hb q ->. exists false. split; [now apply fresh_stage | reflexivity].
Qed.

Lemma stale_until_rederived c post :
  PoiseuilleRelation.reads_configuration c = true ->
  forall mid q,
    run_automaton PoiseuilleRelation.fresh_step true (mid ++ c :: post) = Some q ->
    exists u, In u mid /\ PoiseuilleRelation.rederives u = true.
Proof.
  intro Hc. induction mid as [|e mid IH]; intros q Hrun.
  - simpl in Hrun. unfold PoiseuilleRelation.fresh_step in Hrun.
    rewrite Hc in Hrun. discriminate.
  - destruct (PoiseuilleRelation.rederives e) eqn:R.
    + exists e. split; [now left | exact R].
    + simpl in Hrun. unfold PoiseuilleRelation.fresh_step in Hrun at 1.
      rewrite R in Hrun.
      destruct (PoiseuilleRelation.reads_configuration e); [discriminate|].
      cbn [andb] in Hrun.
      assert (Hq : (if PoiseuilleRelation.disturbs e then true else true) = true)
        by (now destruct (PoiseuilleRelation.disturbs e)).
      rewrite Hq in Hrun.
      destruct (IH q Hrun) as (u & Hin & Hu).
      exists u. split; [now right | exact Hu].
Qed.

Lemma fresh_sound tr q :
  run_automaton PoiseuilleRelation.fresh_step false tr = Some q ->
  forall before m mid c after,
    tr = before ++ m :: mid ++ c :: after ->
    PoiseuilleRelation.disturbs m = true ->
    PoiseuilleRelation.reads_configuration c = true ->
    exists u, In u mid /\ PoiseuilleRelation.rederives u = true.
Proof.
  intros Hrun before m mid c after -> Hm Hc.
  rewrite run_automaton_app in Hrun.
  destruct (run_automaton PoiseuilleRelation.fresh_step false before) as [q1|];
    [|discriminate].
  simpl in Hrun. unfold PoiseuilleRelation.fresh_step in Hrun at 1.
  assert (Hr : PoiseuilleRelation.reads_configuration m = false)
    by (destruct m; simpl in *; congruence).
  assert (Hd : PoiseuilleRelation.rederives m = false)
    by (destruct m; simpl in *; congruence).
  rewrite Hr, Hd, Hm, andb_false_r in Hrun.
  exact (stale_until_rederived c after Hc mid q Hrun).
Qed.

Lemma po_simulation_stages (W : Type) exec adv aco restart_time fuel (w : W) :
  exists tr,
    Poiseuille.log (reached (Poiseuille.simulation exec adv aco restart_time fuel w))
    = [Poiseuille.initializeSystemCellLinkedLists;
       Poiseuille.periodic_condition_update_cell_linked_list_;
       Poiseuille.initializeSystemConfigurations;
       Poiseuille.wall_boundary_normal_direction;
       Poiseuille.body_states_recording (Some 0%Z)] ++ tr
    /\ stages Poiseuille.stage tr.
Proof.
  unfold Poiseuille.simulation.
  destruct (po_time_loop_stages W exec adv aco fuel
              (Poiseuille.setup exec restart_time w)) as (tr & Hlog & Hst).
  exists tr. split; [|exact Hst]. rewrite Hlog. reflexivity.
Qed.

(** X8.  In every run of the Poiseuille driver, from the preparation on, the
    configuration of the water block is re-derived between any call that
    puts particles back into the periodic domain or rebuilds the cell linked
    list and any later call of a dynamics that reads the configuration. *)
Theorem poiseuille_configuration_rederived
    (W : Type) exec adv aco restart_time fuel (w : W) before m mid c after :
  Poiseuille.log (reached (Poiseuille.simulation exec adv aco restart_time fuel w))
  = before ++ m :: mid ++ c :: after ->
  PoiseuilleRelation.disturbs m = true ->
  PoiseuilleRelation.reads_configuration c = true ->
  exists u, In u mid /\ PoiseuilleRelation.rederives u = true.
Proof.
  intros Hlog Hm Hc.
  destruct (po_simulation_stages W exec adv aco restart_time fuel w) as (tr & Hlog0 & Hst).
  rewrite Hlog0 in Hlog.
  assert (Hrun : run_automaton PoiseuilleRelation.fresh_step false
                   ([Poiseuille.initializeSystemCellLinkedLists;
                     Poiseuille.periodic_condition_update_cell_linked_list_;
                     Poiseuille.initializeSystemConfigurations;
                     Poiseuille.wall_boundary_normal_direction;
                     Poiseuille.body_states_recording (Some 0%Z)] ++ tr) = Some false).
  { rewrite run_automaton_app. change (run_automaton PoiseuilleRelation.fresh_step false tr
                                       = Some false). now apply fresh_stages. }
  exact (fresh_sound _ _ Hrun before m mid c after Hlog Hm Hc).
Qed.

Lemma poiseuille_configuration_rederived_witness :
  exists u,
    In u [Poiseuille.water_block_updateCellLinkedList;
          Poiseuille.periodic_condition_update_cell_linked_list_;
          Poiseuille.water_block_complex_updateConfiguration;
          Poiseuille.body_states_recording None;
          Poiseuille.initialize_a_fluid_step;
          Poiseuille.get_fluid_advection_time_step_size]
    /\ PoiseuilleRelation.rederives u = true.
Proof.
  apply (poiseuille_configuration_rederived
           unit Scenarios.still (fun _ _ => 1) (fun _ _ => 1) (fun _ => 0) 3 tt
           ([Poiseuille.initializeSystemCellLinkedLists;
             Poiseuille.periodic_condition_update_cell_linked_list_;
             Poiseuille.initializeSystemConfigurations;
             Poiseuille.wall_boundary_normal_direction;
             Poiseuille.body_states_recording (Some 0%Z)]
            ++ Poiseuille.pre_physics_calls 1 ++ Poiseuille.substep_calls 1
            ++ [Poiseuille.screen_output 0 1 1 1; Poiseuille.restart_io 0])
           Poiseuille.periodic_condition_bounding_
           _
           Poiseuille.update_density_by_summation
           [Poiseuille.transport_velocity_correction 1]).
  - vm_compute. reflexivity.
  - reflexivity.
  - reflexivity.
Defined.

(** ** The particle relaxation *)

Section ParticleRelaxationFacts.

Import ParticleRelaxation.

Variable World : Type.
Variable exec : call -> World -> World.

Lemma vtp_outputs_app a b : vtp_outputs (a ++ b) = vtp_outputs a ++ vtp_outputs b.
Proof.
  induction a as [|c a IH]; [reflexivity|].
  destruct c; cbn [app vtp_outputs]; rewrite IH; reflexivity.
Qed.

Lemma relaxation_step_trace (s : frame World) :
  (0 <= ite_p s)%Z ->
  exists tr,
    log (relaxation_step exec s) = log s ++ tr
    /\ ite_p (relaxation_step exec s) = (ite_p s + 1)%Z
    /\ length (filter is_relaxation_step tr) = 1%nat
    /\ vtp_outputs tr = filter (fun N => (N mod 200 =? 0)%Z) [(ite_p s + 1)%Z]
    /\ (forall N, ~ In (write_particle_reload_files N) tr).
Proof.
  intro Hpos. unfold relaxation_step. cbn [ite_p run].
  rewrite Z.rem_mod_nonneg by lia.
  cbn [filter].
  destruct ((ite_p s + 1) mod 200 =? 0)%Z.
  - exists [relaxation_step_inner; screen_output (ite_p s + 1);
            write_inserted_body_to_vtp (ite_p s + 1)].
    cbn [log run ite_p]. rewrite <- !app_assoc. repeat split.
    intros N [H|[H|[H|[]]]]; discriminate H.
  - exists [relaxation_step_inner]. repeat split.
    intros N [H|[]]; discriminate H.
Qed.

(** From any count of steps done, the loop runs up to 1000 and stops; it
    makes one relaxation step for each count in between and writes the body
    at the counts that are multiples of 200. *)
Lemma relaxation_loop_trace fuel : forall s : frame World,
  (0 <= ite_p s <= 1000)%Z ->
  (Z.to_nat (1000 - ite_p s) <= fuel)%nat ->
  exists s' tr,
    relaxation_loop exec fuel s = Finished s'
    /\ ite_p s' = 1000%Z
    /\ log s' = log s ++ tr
    /\ length (filter is_relaxation_step tr) = Z.to_nat (1000 - ite_p s)
    /\ vtp_outputs tr
       = filter (fun N => (N mod 200 =? 0)%Z)
           (Zrange (ite_p s + 1) (Z.to_nat (1000 - ite_p s)))
    /\ (forall N, ~ In (write_particle_reload_files N) tr).
Proof.
  induction fuel as [|fuel IH]; intros s Hrange Hfuel.
  - assert (H : ite_p s = 1000%Z) by lia.
    exists s, []. cbn [relaxation_loop]. rewrite H.
    change (1000 <? 1000)%Z with false. change (Z.to_nat (1000 - 1000)) with O.
    rewrite app_nil_r. repeat split. intros N [].
  - cbn [relaxation_loop]. destruct (ite_p s <? 1000)%Z eqn:E.
    + apply Z.ltb_lt in E.
      destruct (relaxation_step_trace s)
        as (tr1 & Hlog1 & Hite1 & Hcnt1 & Hvtp1 & Hno1); [lia|].
      destruct (IH (relaxation_step exec s))
        as (s' & tr2 & Hfin & Hite & Hlog & Hcnt & Hvtp & Hno2).
      { rewrite Hite1. lia. }
      { rewrite Hite1. lia. }
      exists s', (tr1 ++ tr2). split; [exact Hfin|]. split; [exact Hite|].
      split; [rewrite Hlog, Hlog1; now rewrite app_assoc|].
      rewrite Hite1 in Hcnt, Hvtp.
      replace (Z.to_nat (1000 - ite_p s)) with (S (Z.to_nat (1000 - (ite_p s + 1)))) by lia.
      split; [|split].
      * rewrite filter_app, length_app, Hcnt1, Hcnt. reflexivity.
      * rewrite vtp_outputs_app, Hvtp1, Hvtp. cbn [Zrange filter].
        destruct ((ite_p s + 1) mod 200 =? 0)%Z; reflexivity.
      * intros N HN. apply in_app_or in HN. destruct HN as [HN|HN].
        -- exact (Hno1 N HN).
        -- exact (Hno2 N HN).
    + apply Z.ltb_ge in E. assert (H : ite_p s = 1000%Z) by lia.
      exists s, []. rewrite H. change (Z.to_nat (1000 - 1000)) with O.
      rewrite app_nil_r. repeat split. intros N [].
Qed.

End ParticleRelaxationFacts.

(** X9.  When the relaxation is chosen, the run makes exactly 1000 relaxation
    steps, whatever the steps do to the particles, and then stops (1000
    unfoldings of the loop are enough); the body is written to Vtp files
    before the first step and after every 200th one, and the reload file is
    written once, as the last call. *)
Theorem relaxation_makes_1000_steps
    (W : Type) (exec : ParticleRelaxation.call -> W -> W) (w : W) (fuel : nat) :
  (1000 <= fuel)%nat ->
  exists s' tr,
    ParticleRelaxation.relaxation exec fuel w = Finished s'
    /\ ParticleRelaxation.ite_p s' = 1000%Z
    /\ ParticleRelaxation.log s' = tr ++ [ParticleRelaxation.write_particle_reload_files 0]
    /\ length (filter ParticleRelaxation.is_relaxation_step tr) = 1000%nat
    /\ ParticleRelaxation.vtp_outputs tr = [0; 200; 400; 600; 800; 1000]%Z
    /\ (forall N, ~ In (ParticleRelaxation.write_particle_reload_files N) tr).
Proof.
  intro Hfuel. unfold ParticleRelaxation.relaxation.
  match goal with
  | |- context [ParticleRelaxation.relaxation_loop exec fuel ?s0] =>
      destruct (relaxation_loop_trace W exec fuel s0)
        as (s1 & tr & Hfin & Hite & Hlog & Hcnt & Hvtp & Hno);
      [cbn; lia | cbn; lia | rewrite Hfin]
  end.
  cbn [and_then].
  cbn [ParticleRelaxation.log ParticleRelaxation.run ParticleRelaxation.ite_p] in *.
  change (Z.to_nat (1000 - 0)) with 1000%nat in Hcnt, Hvtp.
  eexists.
  exists ([ParticleRelaxation.random_inserted_body_particles (1 # 4);
           ParticleRelaxation.relaxation_step_inner_SurfaceBounding;
           ParticleRelaxation.write_inserted_body_to_vtp 0]
          ++ tr ++ [ParticleRelaxation.finish_message]).
  split; [reflexivity|].
  cbn [ParticleRelaxation.log ParticleRelaxation.run ParticleRelaxation.ite_p].
  split; [exact Hite|].
  split; [rewrite Hlog; cbn [app]; rewrite <- !app_assoc; reflexivity|].
  split; [|split].
  - rewrite !filter_app, !length_app, Hcnt. reflexivity.
  - rewrite !vtp_outputs_app, Hvtp. vm_compute. reflexivity.
  - intros N HN. apply in_app_or in HN. destruct HN as [HN|HN].
    + destruct HN as [H|[H|[H|[]]]]; discriminate H.
    + apply in_app_or in HN. destruct HN as [HN|[H|[]]];
        [exact (Hno N HN) | discriminate H].
Qed.

Lemma relaxation_makes_1000_steps_witness :
  exists s' tr,
    ParticleRelaxation.relaxation (fun _ (w : nat) => S w) 1000 O = Finished s'
    /\ ParticleRelaxation.ite_p s' = 1000%Z
    /\ ParticleRelaxation.log s' = tr ++ [ParticleRelaxation.write_particle_reload_files 0]
    /\ length (filter ParticleRelaxation.is_relaxation_step tr) = 1000%nat
    /\ ParticleRelaxation.vtp_outputs tr = [0; 200; 400; 600; 800; 1000]%Z
    /\ (forall N, ~ In (ParticleRelaxation.write_particle_reload_files N) tr).
Proof.
  apply (relaxation_makes_1000_steps nat (fun _ (w : nat) => S w) O 1000). lia.
Defined.
